(** * CoarseNet: [utils/visualization_networkx.py]

    A shallow embedding of [visualize_micro_macro], the routine that draws a
    fine ("micro") graph and its coarse-grained ("macro") version side by
    side, together with the properties its specification states.

    Conventions of the embedding:
    - weights, sizes, widths and positions are exact rationals ([Q]) and
      [==] on them is [Qeq]; what is proved of them is what the order and
      the exact steps of the arithmetic give (a difference of equal numbers,
      a product with zero, monotonicity), not an identity that rounding can
      break.  Where rounding decides a discrete outcome (the palette entry a
      sample selects, whether a rescaled endpoint hits the largest size) the
      code is evaluated on binary64 floats.
    - a Python [dict] is an insertion-ordered association list ([Dict.t]);
      iteration order is list order.
    - an exception is a value of [exn]; code that can raise returns a
      [result].
    - calls into matplotlib / networkx that only draw are recorded as
      [event]s, in program order. *)

From Stdlib Require Import List String ZArith QArith Lia Lqa Bool.
From Stdlib Require Import PrimFloat FloatOps SpecFloat.
From Stdlib Require Uint63.
Import ListNotations.

Set Implicit Arguments.

(** ** Exceptions and results *)

Inductive exn : Type :=
| NameError (name : string)
| KeyError
| IndexError
| ZeroDivisionError
| ValueError
| TypeError
| NetworkXError.

Inductive result (A : Type) : Type :=
| Ok (a : A)
| Raise (e : exn).

Arguments Ok {A} a.
Arguments Raise {A} e.

Definition rbind {A B} (r : result A) (k : A -> result B) : result B :=
  match r with
  | Ok a => k a
  | Raise e => Raise e
  end.

Declare Scope py_scope.
Delimit Scope py_scope with py.
Notation "x <- c ;; k" := (rbind c (fun x => k))
  (at level 61, c at next level, right associativity) : py_scope.
Open Scope py_scope.

(** A list comprehension [[f x for x in xs]] whose body may raise. *)
Fixpoint comprehension {A B} (f : A -> result B) (xs : list A) : result (list B) :=
  match xs with
  | [] => Ok []
  | x :: xs' =>
      y <- f x ;;
      ys <- comprehension f xs' ;;
      Ok (y :: ys)
  end.

(** A [for] loop threading the loop-carried variables [acc]. *)
Fixpoint for_each {A S} (body : S -> A -> result S) (xs : list A) (acc : S) : result S :=
  match xs with
  | [] => Ok acc
  | x :: xs' =>
      acc' <- body acc x ;;
      for_each body xs' acc'
  end.

(** Dictionary keys: values with a decidable equality. *)
Class Hashable (K : Type) := key_eq_dec : forall x y : K, {x = y} + {x <> y}.

#[export] Instance Hashable_Z : Hashable Z := Z.eq_dec.
#[export] Instance Hashable_nat : Hashable nat := Nat.eq_dec.
#[export] Instance Hashable_string : Hashable string := string_dec.

(** ** Insertion-ordered dictionaries *)

Module Dict.

Definition t (K V : Type) : Type := list (K * V).

Definition empty {K V} : t K V := [].

Fixpoint get {K V} `{Hashable K} (d : t K V) (k : K) : option V :=
  match d with
  | [] => None
  | (k', v) :: d' => if key_eq_dec k k' then Some v else get d' k
  end.

(** [d[k] = v]: an existing key keeps its place, a new one goes last. *)
Fixpoint set {K V} `{Hashable K} (d : t K V) (k : K) (v : V) : t K V :=
  match d with
  | [] => [(k, v)]
  | (k', v') :: d' =>
      if key_eq_dec k k' then (k', v) :: d' else (k', v') :: set d' k v
  end.

Definition keys {K V} (d : t K V) : list K := map fst d.
Definition values {K V} (d : t K V) : list V := map snd d.
Definition items {K V} (d : t K V) : list (K * V) := d.

(** [d[k]] as an expression. *)
Definition getitem {K V} `{Hashable K} (d : t K V) (k : K) : result V :=
  match get d k with
  | Some v => Ok v
  | None => Raise KeyError
  end.

(** The representation invariant of a dictionary: no key occurs twice. *)
Definition wf {K V} (d : t K V) : Prop := NoDup (keys d).

End Dict.

(** ** Numbers *)

(** [a / b] on Python numbers. *)
Definition truediv (a b : Q) : result Q :=
  if Qeq_bool b 0 then Raise ZeroDivisionError else Ok (a / b).

(** The builtins [min(a, b)] and [max(a, b)]: the first argument wins ties. *)
Definition py_min2 (a b : Q) : Q := if Qle_bool a b then a else b.
Definition py_max2 (a b : Q) : Q := if Qle_bool b a then a else b.

(** The builtin [max(iterable)] on a list of integers. *)
Definition py_max (xs : list Z) : result Z :=
  match xs with
  | [] => Raise ValueError
  | x :: xs' => Ok (fold_left Z.max xs' x)
  end.

(** [len(xs)] as a number. *)
Definition len {A} (xs : list A) : Z := Z.of_nat (List.length xs).

(** The nested function [rescale_weight] (lines 102-112, 126-136, 153-163).
    The three copies differ only in the defaults of the last four
    parameters, which are passed explicitly here.  The arithmetic is exact;
    [rescale_weight_double] below is the same expression on floats. *)
Definition rescale_weight (weight min_weight max_weight min_size max_size : Q) : result Q :=
  if Qeq_bool max_size min_size then Ok min_size
  else
    ratio <- truediv (weight - min_weight) (max_weight - min_weight) ;;
    Ok (min_size + ratio * (max_size - min_size)).



(** ** numpy *)

(** A fine-node position, as [nx.spring_layout] returns it. *)
Definition pos : Type := (Q * Q)%type.

(** What [np.mean(..., axis=0)] returns on a list of positions: a
    two-component array, or the scalar [nan] when the list is empty.  The
    components are the exact means; numpy returns them rounded to
    float64. *)
Inductive ndarray : Type :=
| Vec2 (x y : Q)
| Nan.

Definition Qsum (xs : list Q) : Q := fold_right Qplus 0 xs.

Definition np_mean_axis0 (ps : list pos) : ndarray :=
  match ps with
  | [] => Nan
  | _ :: _ =>
      Vec2 (Qsum (map fst ps) / inject_Z (len ps))
           (Qsum (map snd ps) / inject_Z (len ps))
  end.

(** An integer as a binary64 float. *)
Definition double_of_Z (z : Z) : float := PrimFloat.of_uint63 (Uint63.of_Z z).
Definition double_of_nat (n : nat) : float := double_of_Z (Z.of_nat n).

(** [x.astype(int)] on a finite float: truncation toward zero. *)
Definition double_trunc (x : float) : Z :=
  match Prim2SF x with
  | S754_finite s m e =>
      let z := if (0 <=? e)%Z then (Z.pos m * 2 ^ e)%Z else Z.shiftr (Z.pos m) (- e) in
      if s then (- z)%Z else z
  | _ => 0%Z
  end.

(** [np.linspace(0, 1, num)] as numpy computes it on float64: with
    [step = 1.0 / (num - 1)] the sample of index [i] is [i * step + 0.0],
    and the last sample is set to 1.0; the single sample of [num = 1] is
    0.0. *)
Definition np_linspace01 (num : nat) : list float :=
  let step := PrimFloat.div 1 (double_of_nat (num - 1)) in
  map (fun i =>
         if Nat.leb num 1 then 0%float
         else if Nat.eqb i (num - 1) then 1%float
         else PrimFloat.add (PrimFloat.mul (double_of_nat i) step) 0)
    (seq 0 num).

(** [a[i]] on a sequence. *)
Definition index {A} (a : list A) (i : nat) : result A :=
  match nth_error a i with
  | Some x => Ok x
  | None => Raise IndexError
  end.

(** [enumerate(xs)]. *)
Definition enumerate {A} (xs : list A) : list (nat * A) :=
  combine (seq 0 (List.length xs)) xs.

(** ** matplotlib colours *)

Definition rgba : Type := (Q * Q * Q * Q)%type.

(** A node colour is either a colour name (the parameter [nc]) or a row of
    the array a colormap returns. *)
Inductive color : Type :=
| Named (name : string)
| RGBA (c : rgba).

Definition is_rgba (c : color) : bool :=
  match c with
  | RGBA _ => true
  | Named _ => false
  end.

(** How matplotlib evaluates a colormap with an [N]-entry lookup table at a
    float [x]: [xa = x * N], with [xa == N] (that is [x = 1]) moved to
    [N - 1]; a [nan] gives the transparent "bad" colour, [xa < 0] the first
    entry, [xa >= N] the last entry, and otherwise the entry of index
    [xa.astype(int)]. *)
Definition colormap_call (lut : list rgba) (x : float) : rgba :=
  let N := len lut in
  let xa := PrimFloat.mul x (double_of_Z N) in
  let xa := if PrimFloat.eqb xa (double_of_Z N) then double_of_Z (N - 1) else xa in
  if negb (PrimFloat.eqb xa xa) then (0, 0, 0, 0)
  else
    let i :=
      if PrimFloat.ltb xa 0 then 0%Z
      else if PrimFloat.leb (double_of_Z N) xa then (N - 1)%Z
      else double_trunc xa in
    nth (Z.to_nat i) lut (0, 0, 0, 0).

Definition rgb255 (r g b : Z) : rgba := (r # 255, g # 255, b # 255, 1).

(** The eight colours of matplotlib's qualitative palette ['Set2'], the
    default of [node_cmap]. *)
Definition Set2_data : list rgba :=
  [ rgb255 102 194 165; rgb255 252 141 98; rgb255 141 160 203;
    rgb255 231 138 195; rgb255 166 216 84; rgb255 255 217 47;
    rgb255 229 196 148; rgb255 179 179 179 ].

Definition Set2 : float -> rgba := colormap_call Set2_data.

(** ** networkx graphs *)

(** A graph as the routine uses it: node iteration and
    [G.edges(data='weight')]. *)
Record Graph (N : Type) : Type := mkGraph {
  nodes : list N;
  edges : list (N * N * Q)
}.

Definition number_of_nodes {N} (G : Graph N) : nat := List.length (nodes G).

Definition is_nan (p : ndarray) : bool :=
  match p with
  | Nan => true
  | Vec2 _ _ => false
  end.

(** What [nx.draw] does with the positions of the nodes it draws.  A graph
    without nodes draws nothing.  Otherwise the positions are packed into
    one array, [np.asarray([pos[v] for v in nodelist])] (a node without a
    position is a [NetworkXError]), and the two columns of the array are
    read: a [nan] among two-component positions makes the list ragged and
    [np.asarray] raises [ValueError]; when every position is [nan] the
    array has a single dimension and reading its columns raises
    [IndexError]. *)
Definition nx_draw_positions {N} `{Hashable N} (positions : Dict.t N ndarray)
    (nodelist : list N) : result unit :=
  match nodelist with
  | [] => Ok tt
  | _ :: _ =>
      match comprehension (Dict.getitem positions) nodelist with
      | Raise _ => Raise NetworkXError
      | Ok xy =>
          if forallb (fun p => negb (is_nan p)) xy then Ok tt
          else if forallb is_nan xy then Raise IndexError
          else Raise ValueError
      end
  end.

(** Lines 96-100 and 147-151: the scan for the least and the largest edge
    weight. *)
Definition weight_range {N} (es : list (N * N * Q)) : Q * Q :=
  fold_left
    (fun '(min_weight, max_weight) edge =>
       (py_min2 min_weight (snd edge), py_max2 max_weight (snd edge)))
    es (1000000000, -1000000000).

(** ** Keyword parameters of [visualize_micro_macro] *)

Record Options : Type := mkOptions {
  min_ns : Q;
  max_ns : Q;
  min_lw : Q;
  max_lw : Q;
  ec : string;
  nc : string;
  nec : string;
  all_colorful : bool;
  node_cmap : float -> rgba;
  method_title : option string
}.

Definition default_options : Options :=
  {| min_ns := 60; max_ns := 300; min_lw := 2; max_lw := 4;
     ec := ".7"; nc := "w"; nec := "steelblue";
     all_colorful := true; node_cmap := Set2; method_title := None |}.

(** ** The routine *)

Section Routine.

Context {Micro Macro : Type} `{Hashable Micro} `{Hashable Macro}.

(** The [mapping] argument: the rows of a table with the columns ['micro']
    and ['macro']. *)
Definition DataFrame : Type := list (Micro * Macro).

(** Modelled from the spec: [get_micro2macro_dict_from_pd_df] is called at
    line 51 and is not defined in the source file.  Section 4.1, operation 1:
    "build mapping fine -> coarse by iterating rows". *)
Definition get_micro2macro_dict_from_pd_df (mapping : DataFrame) : Dict.t Micro Macro :=
  fold_left (fun d row => Dict.set d (fst row) (snd row)) mapping Dict.empty.

(** Modelled from the spec: [get_macro2microlist_dict_from_micro2macro_dict]
    is called at line 53 and is not defined in the source file.  Section 4.1,
    operation 2: "for each coarse identifier appearing as a value in the
    forward map, collect the ordered set of fine identifiers that map to it
    (grouping, not sorting - order follows first-seen iteration order of the
    forward map)". *)
Definition get_macro2microlist_dict_from_micro2macro_dict
    (micro2macro_dict : Dict.t Micro Macro) : Dict.t Macro (list Micro) :=
  fold_left
    (fun inverse '(micro_node, macro_node) =>
       match Dict.get inverse macro_node with
       | Some micro_nodes => Dict.set inverse macro_node (micro_nodes ++ [micro_node])
       | None => Dict.set inverse macro_node [micro_node]
       end)
    (Dict.items micro2macro_dict) Dict.empty.

(** Lines 59-61: the centre of mass of every group of fine nodes. *)
Definition pos_macro (macro2microlist_dict : Dict.t Macro (list Micro))
    (pos_micro : Dict.t Micro pos) : result (Dict.t Macro ndarray) :=
  for_each
    (fun pos_macro '(macro_node, micro_nodes) =>
       ps <- comprehension (Dict.getitem pos_micro) micro_nodes ;;
       Ok (Dict.set pos_macro macro_node (np_mean_axis0 ps)))
    (Dict.items macro2microlist_dict) Dict.empty.

(** Line 70. *)
Definition number_of_big_macro_nodes (macro2microlist_dict : Dict.t Macro (list Micro)) : nat :=
  List.length (filter (fun l => (1 <? len l)%Z) (Dict.values macro2microlist_dict)).

(** Lines 64-79: the colour of every coarse node; [pos_macro_keys] is
    [pos_macro.keys()]. *)
Definition macro_colors_dict (opts : Options) (G_macro : Graph Macro)
    (macro2microlist_dict : Dict.t Macro (list Micro))
    (pos_macro_keys : list Macro) : result (Dict.t Macro color) :=
  if all_colorful opts then
    let macro_colors := map (node_cmap opts) (np_linspace01 (number_of_nodes G_macro)) in
    for_each
      (fun macro_colors_dict '(i, macro_node) =>
         c <- index macro_colors i ;;
         Ok (Dict.set macro_colors_dict macro_node (RGBA c)))
      (enumerate pos_macro_keys) Dict.empty
  else
    let macro_colors :=
      map (node_cmap opts) (np_linspace01 (number_of_big_macro_nodes macro2microlist_dict)) in
    st <- for_each
      (fun '(macro_colors_dict, index_color) macro_node =>
         micro_nodes <- Dict.getitem macro2microlist_dict macro_node ;;
         if (1 <? len micro_nodes)%Z then
           c <- index macro_colors index_color ;;
           Ok (Dict.set macro_colors_dict macro_node (RGBA c), S index_color)
         else
           Ok (Dict.set macro_colors_dict macro_node (Named (nc opts)), index_color))
      pos_macro_keys (Dict.empty, O) ;;
    Ok (fst st).

(** Lines 82-84: every fine node takes the colour of its coarse node. *)
Definition micro_colors_dict (pos_micro : Dict.t Micro pos)
    (micro2macro_dict : Dict.t Micro Macro)
    (macro_colors_dict : Dict.t Macro color) : result (Dict.t Micro color) :=
  for_each
    (fun micro_colors_dict micro_node =>
       macro_node <- Dict.getitem micro2macro_dict micro_node ;;
       c <- Dict.getitem macro_colors_dict macro_node ;;
       Ok (Dict.set micro_colors_dict micro_node c))
    (Dict.keys pos_micro) Dict.empty.

(** Lines 124-125 and 141: the size of every coarse node, in the node order
    of [G_macro]. *)
Definition macro_node_sizes (opts : Options) (G_macro : Graph Macro)
    (macro2microlist_dict : Dict.t Macro (list Micro)) : result (list Q) :=
  let min_weight_macro := 1 in
  max_weight_macro <- py_max (map (fun l => len l) (Dict.values macro2microlist_dict)) ;;
  comprehension
    (fun node =>
       micro_nodes <- Dict.getitem macro2microlist_dict node ;;
       rescale_weight (inject_Z (len micro_nodes)) min_weight_macro
         (inject_Z max_weight_macro) (min_ns opts) (max_ns opts))
    (nodes G_macro).

(** *** Drawing calls and name resolution *)

Inductive event : Type :=
| Subplots
| Suptitle (title : string)
| DrawMicro (G : Graph Micro) (positions : Dict.t Micro pos) (node_size : Q)
    (node_color : list color) (edgecolors : string)
| DrawMicroEdge (edge : Micro * Micro * Q) (width : Q) (edge_color : string)
| DrawMacro (G : Graph Macro) (positions : Dict.t Macro ndarray) (node_size : list Q)
    (node_color : list color) (edgecolors : string)
| DrawMacroEdge (edge : Macro * Macro * Q) (width : Q) (edge_color : string)
| SetTitle (panel : nat) (title : string)
| PltShow.

(** A run: the drawing calls made so far, and how the run ended. *)
Definition io (A : Type) : Type := (list event * result A)%type.

Definition io_bind {A B} (m : io A) (k : A -> io B) : io B :=
  match m with
  | (t, Ok a) => let '(t', r) := k a in (t ++ t', r)
  | (t, Raise e) => (t, Raise e)
  end.

Definition lift {A} (r : result A) : io A := ([], r).
Definition emit (e : event) : io unit := ([e], Ok tt).
Definition emit_all (es : list event) : io unit := (es, Ok tt).

(** What a global name of the module can be bound to. *)
Inductive pyobj : Type :=
| PyModule (name : string)
| PyFunction (name : string)
| PyBuiltin (name : string)
| Micro2MacroFn (f : DataFrame -> result (Dict.t Micro Macro))
| Macro2MicroListFn (f : Dict.t Micro Macro -> result (Dict.t Macro (list Micro))).

Definition namespace : Type := list (string * pyobj).

(** The functions of Python's [builtins] module. *)
Definition builtins : list string :=
  [ "abs"; "aiter"; "all"; "anext"; "any"; "ascii"; "bin"; "bool";
    "breakpoint"; "bytearray"; "bytes"; "callable"; "chr"; "classmethod";
    "compile"; "complex"; "delattr"; "dict"; "dir"; "divmod"; "enumerate";
    "eval"; "exec"; "filter"; "float"; "format"; "frozenset"; "getattr";
    "globals"; "hasattr"; "hash"; "help"; "hex"; "id"; "input"; "int";
    "isinstance"; "issubclass"; "iter"; "len"; "list"; "locals"; "map";
    "max"; "memoryview"; "min"; "next"; "object"; "oct"; "open"; "ord";
    "pow"; "print"; "property"; "range"; "repr"; "reversed"; "round"; "set";
    "setattr"; "slice"; "sorted"; "staticmethod"; "str"; "sum"; "super";
    "tuple"; "type"; "vars"; "zip"; "__import__" ]%string.

(** The global names of the module once its top level has run: the four
    imports of lines 10-13 and the [def] of line 15. *)
Definition module_globals : namespace :=
  [ ("plt", PyModule "matplotlib.pyplot");
    ("np", PyModule "numpy");
    ("mpl", PyModule "matplotlib");
    ("nx", PyModule "networkx");
    ("visualize_micro_macro", PyFunction "visualize_micro_macro") ]%string.

(** Reading a global name inside a function body: the module's globals,
    then the builtins, else [NameError]. *)
Definition load_global (globals : namespace) (name : string) : result pyobj :=
  match Dict.get globals name with
  | Some o => Ok o
  | None =>
      if existsb (String.eqb name) builtins then Ok (PyBuiltin name)
      else Raise (NameError name)
  end.

Definition call_on_mapping (f : pyobj) (mapping : DataFrame) : result (Dict.t Micro Macro) :=
  match f with
  | Micro2MacroFn g => g mapping
  | _ => Raise TypeError
  end.

Definition call_on_micro2macro (f : pyobj) (d : Dict.t Micro Macro)
  : result (Dict.t Macro (list Micro)) :=
  match f with
  | Macro2MicroListFn g => g d
  | _ => Raise TypeError
  end.

Notation "x <~ c ;; k" := (io_bind c (fun x => k))
  (at level 61, c at next level, right associativity) : py_scope.

(** A call [m.f(...)] that draws: the global name [m] is read, the
    arguments are evaluated, and the call is recorded. *)
Definition call_drawing {A} (globals : namespace) (module : string)
    (args : result A) (draw : A -> event) : io unit :=
  _ <~ lift (load_global globals module) ;;
  a <~ lift args ;;
  emit (draw a).

(** Lines 114-120 and 165-171: every edge is drawn on its own, with the
    width [rescale_weight] gives its weight. *)
Fixpoint draw_edges {N} (globals : namespace) (draw : N * N * Q -> Q -> event)
    (rescale : Q -> result Q) (es : list (N * N * Q)) : io unit :=
  match es with
  | [] => lift (Ok tt)
  | edge :: es' =>
      _ <~ call_drawing globals "nx" (rescale (snd edge)) (draw edge) ;;
      draw_edges globals draw rescale es'
  end.

(** [visualize_micro_macro] (lines 15-176), run with the module's global
    names [globals]; [spring_layout] stands for [nx.spring_layout].  The
    global names read by the statements of the body are resolved in program
    order; those read again inside the loops ([np], [len], [min], [max],
    [enumerate]) are modules and builtins and are not resolved anew. *)
Definition visualize_micro_macro (globals : namespace)
    (spring_layout : Graph Micro -> Dict.t Micro pos)
    (G_micro : Graph Micro) (mapping : DataFrame) (G_macro : Graph Macro)
    (opts : Options) : io unit :=
  (* lines 46-48 *)
  _ <~ call_drawing globals "plt" (Ok tt) (fun _ => Subplots) ;;
  _ <~ match method_title opts with
       | Some title => emit (Suptitle title)
       | None => lift (Ok tt)
       end ;;
  (* lines 51-53 *)
  f <~ lift (load_global globals "get_micro2macro_dict_from_pd_df") ;;
  micro2macro_dict <~ lift (call_on_mapping f mapping) ;;
  g <~ lift (load_global globals "get_macro2microlist_dict_from_micro2macro_dict") ;;
  macro2microlist_dict <~ lift (call_on_micro2macro g micro2macro_dict) ;;
  (* line 56 *)
  _ <~ lift (load_global globals "nx") ;;
  let pos_micro := spring_layout G_micro in
  (* lines 59-61 *)
  pos_macro' <~ lift (pos_macro macro2microlist_dict pos_micro) ;;
  (* lines 64-79 *)
  _ <~ lift (load_global globals "mpl") ;;
  _ <~ lift (load_global globals "np") ;;
  macro_colors_dict' <~
    lift (macro_colors_dict opts G_macro macro2microlist_dict (Dict.keys pos_macro')) ;;
  (* lines 82-84 *)
  micro_colors_dict' <~ lift (micro_colors_dict pos_micro micro2macro_dict macro_colors_dict') ;;
  (* lines 88-94 *)
  _ <~ call_drawing globals "nx"
         (comprehension (Dict.getitem micro_colors_dict') (nodes G_micro))
         (fun node_color => DrawMicro G_micro pos_micro (min_ns opts) node_color (nec opts)) ;;
  (* lines 96-120 *)
  let '(min_weight_micro, max_weight_micro) := weight_range (edges G_micro) in
  _ <~ draw_edges globals (fun edge width => DrawMicroEdge edge width (ec opts))
         (fun weight =>
            rescale_weight weight min_weight_micro max_weight_micro (min_lw opts) (max_lw opts))
         (edges G_micro) ;;
  (* lines 124-144 *)
  node_size <~ lift (macro_node_sizes opts G_macro macro2microlist_dict) ;;
  _ <~ call_drawing globals "nx"
         (node_color <- comprehension (Dict.getitem macro_colors_dict') (nodes G_macro) ;;
          _ <- nx_draw_positions pos_macro' (nodes G_macro) ;;
          Ok node_color)
         (fun node_color => DrawMacro G_macro pos_macro' node_size node_color (nec opts)) ;;
  (* lines 147-171 *)
  let '(min_weight_macro, max_weight_macro) := weight_range (edges G_macro) in
  _ <~ draw_edges globals (fun edge width => DrawMacroEdge edge width (ec opts))
         (fun weight =>
            rescale_weight weight min_weight_macro max_weight_macro (min_lw opts) (max_lw opts))
         (edges G_macro) ;;
  (* lines 173-176 *)
  _ <~ emit_all [SetTitle 0 "Original network"; SetTitle 1 "Coarse-grained network"] ;;
  call_drawing globals "plt" (Ok tt) (fun _ => PltShow).

(** Modelled from the spec: a namespace in which the two helper names of
    lines 51 and 53, missing from the source file, are bound to the
    operations of section 4.1. *)
Definition globals_with_helpers : namespace :=
  module_globals ++
  [ ("get_micro2macro_dict_from_pd_df",
     Micro2MacroFn (fun mapping => Ok (get_micro2macro_dict_from_pd_df mapping)));
    ("get_macro2microlist_dict_from_micro2macro_dict",
     Macro2MicroListFn (fun d => Ok (get_macro2microlist_dict_from_micro2macro_dict d))) ]%string.

(** The module's namespace once the two helper names of lines 51 and 53 are
    bound to two functions [translate] and [invert]. *)
Definition globals_binding
    (translate : DataFrame -> result (Dict.t Micro Macro))
    (invert : Dict.t Micro Macro -> result (Dict.t Macro (list Micro))) : namespace :=
  module_globals ++
  [ ("get_micro2macro_dict_from_pd_df", Micro2MacroFn translate);
    ("get_macro2microlist_dict_from_micro2macro_dict", Macro2MicroListFn invert) ]%string.

End Routine.

(** ** Quantities the properties speak about *)

(** The fine nodes a forward map sends to [macro_node], in the iteration
    order of the forward map. *)
Definition members {Micro Macro} `{Hashable Macro}
    (micro2macro_dict : Dict.t Micro Macro) (macro_node : Macro) : list Micro :=
  map fst
    (filter (fun item => if key_eq_dec (snd item) macro_node then true else false)
       (Dict.items micro2macro_dict)).

(** The arithmetic mean of a list of numbers. *)
Definition mean (xs : list Q) : Q := Qsum xs / inject_Z (len xs).

(** The palette entries a colour map hands out, in iteration order. *)
Definition palette_colors {K} (colors : Dict.t K color) : list color :=
  filter is_rgba (Dict.values colors).

(** How the selective mode paints one coarse node: a palette entry when it
    merges several fine nodes, the neutral colour otherwise. *)
Definition painted {Micro Macro} (neutral : string)
    (item : Macro * list Micro) (entry : Macro * color) : Prop :=
  fst entry = fst item /\
  if (1 <? len (snd item))%Z then is_rgba (snd entry) = true
  else snd entry = Named neutral.

(** ** Concrete inputs *)

(** The end-to-end scenario of the specification (section 8, item 7). *)
Definition scenario_G_micro : Graph Z :=
  mkGraph [1; 2; 3; 4]%Z [((1, 2)%Z, 1); ((3, 4)%Z, 2)].

Definition scenario_mapping : list (Z * string) :=
  [(1%Z, "A"); (2%Z, "A"); (3%Z, "B"); (4%Z, "B")]%string.

Definition scenario_G_macro : Graph string :=
  mkGraph ["A"; "B"]%string [(("A", "B")%string, 1)].

(** One layout of the four fine nodes: the corners of the unit square. *)
Definition scenario_layout (G : Graph Z) : Dict.t Z pos :=
  map (fun n => (n, (inject_Z ((n - 1) / 2), inject_Z ((n - 1) mod 2)))) (nodes G).

Definition scenario_inverse : Dict.t string (list Z) :=
  get_macro2microlist_dict_from_micro2macro_dict
    (get_micro2macro_dict_from_pd_df scenario_mapping).

(** Eighteen fine nodes merged two by two into nine coarse nodes. *)
Definition nine_pairs_mapping : list (Z * Z) :=
  map (fun i => (Z.of_nat i, Z.of_nat (i / 2))) (seq 0 18).

Definition nine_pairs_inverse : Dict.t Z (list Z) :=
  get_macro2microlist_dict_from_micro2macro_dict
    (get_micro2macro_dict_from_pd_df nine_pairs_mapping).

Definition nine_pairs_G_macro : Graph Z :=
  mkGraph (map Z.of_nat (seq 0 9)) [].

Definition nine_pairs_layout : Dict.t Z pos :=
  map (fun i => (Z.of_nat i, (inject_Z (Z.of_nat i), 0))) (seq 0 18).

(** Two fine nodes, none merged with another. *)
Definition singletons_mapping : list (Z * string) :=
  [(1%Z, "A"); (2%Z, "B")]%string.

Definition singletons_inverse : Dict.t string (list Z) :=
  get_macro2microlist_dict_from_micro2macro_dict
    (get_micro2macro_dict_from_pd_df singletons_mapping).

Definition selective_options : Options :=
  {| min_ns := 60; max_ns := 300; min_lw := 2; max_lw := 4;
     ec := ".7"; nc := "w"; nec := "steelblue";
     all_colorful := false; node_cmap := Set2; method_title := None |}.

(** A fine graph with no node, and its empty coarse graph and mapping. *)
Definition empty_graph {N} : Graph N := mkGraph [] [].

(** * Properties *)

(** ** Dictionaries *)

Module DictFacts.

Section Facts.

Context {K V : Type} `{Hashable K}.

Lemma get_set_same (d : Dict.t K V) k v : Dict.get (Dict.set d k v) k = Some v.
Proof.
  induction d as [|[k' v'] d IH]; simpl.
  - destruct (key_eq_dec k k); congruence.
  - destruct (key_eq_dec k k') as [->|Hne]; simpl.
    + destruct (key_eq_dec k' k'); congruence.
    + destruct (key_eq_dec k k'); congruence.
Qed.

Lemma get_set_other (d : Dict.t K V) k k' v :
  k <> k' -> Dict.get (Dict.set d k v) k' = Dict.get d k'.
Proof.
  intros Hne. induction d as [|[k0 v0] d IH]; simpl.
  - destruct (key_eq_dec k' k); congruence.
  - destruct (key_eq_dec k k0) as [->|Hk]; simpl.
    + destruct (key_eq_dec k' k0); congruence.
    + destruct (key_eq_dec k' k0); congruence.
Qed.

Lemma get_none_iff (d : Dict.t K V) k : Dict.get d k = None <-> ~ In k (Dict.keys d).
Proof.
  induction d as [|[k' v'] d IH]; simpl.
  - tauto.
  - destruct (key_eq_dec k k') as [->|Hne].
    + split; [discriminate | tauto].
    + rewrite IH. split; [intros Hn [Heq|Hin]; congruence | tauto].
Qed.

Lemma get_some_in (d : Dict.t K V) k v : Dict.get d k = Some v -> In (k, v) d.
Proof.
  induction d as [|[k' v'] d IH]; simpl; [discriminate|].
  destruct (key_eq_dec k k') as [->|Hne].
  - intros [= ->]. now left.
  - intros Hg. right. now apply IH.
Qed.

Lemma in_get (d : Dict.t K V) k v : Dict.wf d -> In (k, v) d -> Dict.get d k = Some v.
Proof.
  unfold Dict.wf, Dict.keys.
  induction d as [|[k' v'] d IH]; simpl; [tauto|].
  intros Hnd [Heq|Hin].
  - injection Heq as -> ->. destruct (key_eq_dec k k); congruence.
  - inversion Hnd as [|? ? Hnotin Hnd']; subst.
    destruct (key_eq_dec k k') as [->|Hne].
    + exfalso. apply Hnotin. change k' with (fst (k', v)). now apply in_map.
    + now apply IH.
Qed.

Lemma set_fresh (d : Dict.t K V) k v :
  ~ In k (Dict.keys d) -> Dict.set d k v = d ++ [(k, v)].
Proof.
  induction d as [|[k' v'] d IH]; simpl; [reflexivity|].
  intros Hn. destruct (key_eq_dec k k') as [->|Hne]; [tauto|].
  f_equal. apply IH. tauto.
Qed.

Lemma keys_set_present (d : Dict.t K V) k v :
  In k (Dict.keys d) -> Dict.keys (Dict.set d k v) = Dict.keys d.
Proof.
  induction d as [|[k' v'] d IH]; simpl; [tauto|].
  intros Hin. destruct (key_eq_dec k k') as [->|Hne]; simpl; [reflexivity|].
  f_equal. apply IH. destruct Hin; congruence.
Qed.

Lemma wf_set (d : Dict.t K V) k v : Dict.wf d -> Dict.wf (Dict.set d k v).
Proof.
  intros Hwf. destruct (in_dec key_eq_dec k (Dict.keys d)) as [Hin|Hn].
  - unfold Dict.wf. now rewrite keys_set_present.
  - rewrite set_fresh by assumption. unfold Dict.wf, Dict.keys in *.
    rewrite map_app. simpl. apply NoDup_app; [assumption | | ].
    + constructor; [tauto | constructor].
    + intros x Hx [<-|[]]. tauto.
Qed.

Lemma getitem_ok (d : Dict.t K V) k v : Dict.getitem d k = Ok v <-> Dict.get d k = Some v.
Proof.
  unfold Dict.getitem. destruct (Dict.get d k); split; congruence.
Qed.

End Facts.

End DictFacts.

(** ** The mapping translator *)

Section MappingTranslator.

Context {Micro Macro : Type} `{Hashable Micro} `{Hashable Macro}.

Lemma forward_map_wf (mapping : @DataFrame Micro Macro) :
  Dict.wf (get_micro2macro_dict_from_pd_df mapping).
Proof.
  unfold get_micro2macro_dict_from_pd_df.
  assert (Hgen : forall (rows : @DataFrame Micro Macro) d, Dict.wf d ->
            Dict.wf (fold_left (fun d row => Dict.set d (fst row) (snd row)) rows d)).
  { induction rows as [|row rows IH]; simpl; intros d Hd; [assumption|].
    apply IH. now apply DictFacts.wf_set. }
  apply Hgen. constructor.
Qed.

Lemma members_cons_same (d : Dict.t Micro Macro) f c :
  members ((f, c) :: d) c = f :: members d c.
Proof.
  unfold members. simpl. destruct (key_eq_dec c c); [reflexivity | congruence].
Qed.

Lemma members_cons_other (d : Dict.t Micro Macro) f c c' :
  c <> c' -> members ((f, c) :: d) c' = members d c'.
Proof.
  intros Hne. unfold members. simpl. destruct (key_eq_dec c c'); [congruence | reflexivity].
Qed.

Lemma in_members (d : Dict.t Micro Macro) f c : In f (members d c) <-> In (f, c) d.
Proof.
  unfold members, Dict.items. rewrite in_map_iff. split.
  - intros [[f' c'] [Hf Hin]]. simpl in Hf. subst f'.
    apply filter_In in Hin as [Hin Hc]. simpl in Hc.
    destruct (key_eq_dec c' c); [congruence | discriminate].
  - intros Hin. exists (f, c). split; [reflexivity|].
    apply filter_In. split; [assumption|]. simpl.
    destruct (key_eq_dec c c); [reflexivity | congruence].
Qed.

(** The inverse map after the loop has consumed [d], starting from the
    partial inverse [inverse]. *)
Lemma inverse_loop_get (d : Dict.t Micro Macro) :
  forall (inverse : Dict.t Macro (list Micro)) c,
    Dict.get
      (fold_left
         (fun inverse '(micro_node, macro_node) =>
            match Dict.get inverse macro_node with
            | Some micro_nodes => Dict.set inverse macro_node (micro_nodes ++ [micro_node])
            | None => Dict.set inverse macro_node [micro_node]
            end) d inverse) c
    = match Dict.get inverse c, members d c with
      | None, [] => None
      | None, l => Some l
      | Some l0, l => Some (l0 ++ l)
      end.
Proof.
  induction d as [|[f c0] d IH]; intros inverse c.
  - simpl. destruct (Dict.get inverse c); [now rewrite app_nil_r | reflexivity].
  - cbn [fold_left]. rewrite IH. destruct (key_eq_dec c0 c) as [->|Hne].
    + rewrite members_cons_same.
      destruct (Dict.get inverse c) as [l0|] eqn:Hg; rewrite DictFacts.get_set_same.
      * now rewrite <- app_assoc.
      * reflexivity.
    + rewrite (members_cons_other d f Hne).
      destruct (Dict.get inverse c0); now rewrite DictFacts.get_set_other.
Qed.

Lemma inverse_map_get (d : Dict.t Micro Macro) c :
  Dict.get (get_macro2microlist_dict_from_micro2macro_dict d) c
  = match members d c with
    | [] => None
    | l => Some l
    end.
Proof.
  unfold get_macro2microlist_dict_from_micro2macro_dict, Dict.items.
  now rewrite inverse_loop_get.
Qed.

(** C4 (mapping round-trip).  With the forward and the inverse map built as
    section 4.1 describes: every fine node [f] that is a key of the forward
    map is in the inverse map's list of its coarse node [forward_map[f]] and
    in the list of no other coarse node; and the list of every coarse node
    is exactly the fine nodes mapped to it, in the iteration order of the
    forward map. *)
Theorem mapping_round_trip (mapping : @DataFrame Micro Macro) :
  let forward_map := get_micro2macro_dict_from_pd_df mapping in
  let inverse_map := get_macro2microlist_dict_from_micro2macro_dict forward_map in
  (forall f c, Dict.get forward_map f = Some c ->
     exists l, Dict.get inverse_map c = Some l /\ In f l /\
       forall c' l', Dict.get inverse_map c' = Some l' -> In f l' -> c' = c)
  /\
  (forall c l, Dict.get inverse_map c = Some l -> l = members forward_map c).
Proof.
  intros forward_map inverse_map.
  assert (Horder : forall c l, Dict.get inverse_map c = Some l -> l = members forward_map c).
  { intros c l. unfold inverse_map. rewrite inverse_map_get.
    destruct (members forward_map c); congruence. }
  split; [|exact Horder].
  intros f c Hf.
  assert (Hin : In f (members forward_map c)).
  { apply in_members. now apply DictFacts.get_some_in. }
  exists (members forward_map c). repeat split.
  - unfold inverse_map. rewrite inverse_map_get.
    destruct (members forward_map c); [contradiction | reflexivity].
  - exact Hin.
  - intros c' l' Hl' Hfl'. apply Horder in Hl'. subst l'.
    apply in_members in Hfl'.
    apply DictFacts.in_get in Hfl'; [|apply forward_map_wf].
    congruence.
Qed.

End MappingTranslator.

(** ** The layout deriver *)

Section LayoutDeriver.

Context {Micro Macro : Type} `{Hashable Micro} `{Hashable Macro}.

Lemma comprehension_getitem {K V} `{Hashable K} (d : Dict.t K V) (ks : list K) :
  (forall k, In k ks -> exists v, Dict.get d k = Some v) ->
  exists vs, comprehension (Dict.getitem d) ks = Ok vs /\
             Forall2 (fun k v => Dict.get d k = Some v) ks vs.
Proof.
  induction ks as [|k ks IH]; intros Hall; simpl.
  - exists []. split; [reflexivity | constructor].
  - destruct (Hall k (or_introl eq_refl)) as [v Hv].
    destruct IH as [vs [Hvs HF]]; [intros k' Hk'; apply Hall; now right|].
    exists (v :: vs). unfold Dict.getitem at 1. rewrite Hv. simpl. rewrite Hvs. simpl.
    split; [reflexivity | now constructor].
Qed.

(** The loop of lines 60-61, started from the partial result [acc]. *)
Lemma pos_macro_loop (pos_micro : Dict.t Micro pos) (items : list (Macro * list Micro)) :
  forall acc : Dict.t Macro ndarray,
    NoDup (map fst items) ->
    (forall c l f, In (c, l) items -> In f l -> exists p, Dict.get pos_micro f = Some p) ->
    exists pm,
      for_each
        (fun pos_macro '(macro_node, micro_nodes) =>
           ps <- comprehension (Dict.getitem pos_micro) micro_nodes ;;
           Ok (Dict.set pos_macro macro_node (np_mean_axis0 ps)))
        items acc = Ok pm
      /\ (forall c l, In (c, l) items ->
            exists ps, Forall2 (fun f p => Dict.get pos_micro f = Some p) l ps /\
                       Dict.get pm c = Some (np_mean_axis0 ps))
      /\ (forall c, ~ In c (map fst items) -> Dict.get pm c = Dict.get acc c).
Proof.
  induction items as [|[c0 l0] items IH]; intros acc Hnd Hpos.
  - exists acc. simpl. repeat split; tauto.
  - inversion Hnd as [|? ? Hfresh Hnd']; subst.
    destruct (@comprehension_getitem _ _ _ pos_micro l0) as [ps0 [Hps0 HF0]].
    { intros f Hf. apply (Hpos c0 l0 f); [now left | exact Hf]. }
    destruct (IH (Dict.set acc c0 (np_mean_axis0 ps0)) Hnd') as [pm [Hrun [Hin Hout]]].
    { intros c l f Hcl Hf. apply (Hpos c l f); [now right | exact Hf]. }
    exists pm. cbn [for_each]. rewrite Hps0. cbn [rbind]. split; [exact Hrun|]. split.
    + intros c l [Heq|Hcl].
      * injection Heq as <- <-. exists ps0. split; [exact HF0|].
        rewrite (Hout c0 Hfresh). apply DictFacts.get_set_same.
      * now apply Hin.
    + intros c Hc. simpl in Hc. rewrite Hout by tauto.
      apply DictFacts.get_set_other. intros ->. tauto.
Qed.

(** The coarse position map has the keys of the inverse map, in its
    order. *)
Lemma pos_macro_loop_keys (pos_micro : Dict.t Micro pos) (items : list (Macro * list Micro)) :
  forall (acc pm : Dict.t Macro ndarray),
    NoDup (Dict.keys acc ++ map fst items) ->
    for_each
      (fun pos_macro '(macro_node, micro_nodes) =>
         ps <- comprehension (Dict.getitem pos_micro) micro_nodes ;;
         Ok (Dict.set pos_macro macro_node (np_mean_axis0 ps)))
      items acc = Ok pm ->
    Dict.keys pm = Dict.keys acc ++ map fst items.
Proof.
  induction items as [|[c0 l0] items IH]; intros acc pm Hnd Hrun.
  - simpl in *. injection Hrun as <-. now rewrite app_nil_r.
  - cbn [for_each] in Hrun.
    destruct (comprehension (Dict.getitem pos_micro) l0) as [ps0|e]; [|discriminate].
    cbn [rbind] in Hrun. simpl in Hnd.
    assert (Hfresh : ~ In c0 (Dict.keys acc)).
    { intros Hin. apply NoDup_remove_2 in Hnd. apply Hnd. apply in_or_app. now left. }
    rewrite DictFacts.set_fresh in Hrun by exact Hfresh.
    apply IH in Hrun.
    + rewrite Hrun. unfold Dict.keys. rewrite map_app. simpl. now rewrite <- app_assoc.
    + unfold Dict.keys. rewrite map_app. simpl. now rewrite <- app_assoc.
Qed.

Lemma pos_macro_keys (inverse_map : Dict.t Macro (list Micro)) pos_micro pm :
  Dict.wf inverse_map ->
  pos_macro inverse_map pos_micro = Ok pm ->
  Dict.keys pm = Dict.keys inverse_map.
Proof.
  intros Hwf Hrun. unfold pos_macro in Hrun.
  apply pos_macro_loop_keys in Hrun; [exact Hrun | exact Hwf].
Qed.

(** C5 (centroid correctness).  When every member of every group has a
    position, the loop of lines 59-61 ends normally, and the position it
    gives a coarse node [c] with a non-empty member list is the
    componentwise arithmetic mean of the positions of the fine nodes in
    [inverse_map[c]]. *)
Theorem centroid_correctness (inverse_map : Dict.t Macro (list Micro))
    (pos_micro : Dict.t Micro pos) :
  Dict.wf inverse_map ->
  (forall c l f, Dict.get inverse_map c = Some l -> In f l ->
     exists p, Dict.get pos_micro f = Some p) ->
  exists position,
    pos_macro inverse_map pos_micro = Ok position /\
    forall c l, Dict.get inverse_map c = Some l -> l <> [] ->
      exists ps x y,
        Forall2 (fun f p => Dict.get pos_micro f = Some p) l ps /\
        Dict.get position c = Some (Vec2 x y) /\
        x == mean (map fst ps) /\ y == mean (map snd ps).
Proof.
  intros Hwf Hpos.
  destruct (@pos_macro_loop pos_micro (Dict.items inverse_map) Dict.empty)
    as [pm [Hrun [Hin _]]].
  - exact Hwf.
  - intros c l f Hcl Hf. apply (Hpos c l f); [now apply DictFacts.in_get | exact Hf].
  - exists pm. split; [exact Hrun|].
    intros c l Hc Hne. apply DictFacts.get_some_in in Hc.
    destruct (Hin c l Hc) as [ps [HF Hget]].
    destruct ps as [|p ps].
    + inversion HF; subst. congruence.
    + exists (p :: ps), (mean (map fst (p :: ps))), (mean (map snd (p :: ps))).
      repeat split; try assumption; try reflexivity.
      rewrite Hget. unfold np_mean_axis0, mean, len. now rewrite !length_map.
Qed.

End LayoutDeriver.

(** ** The size and width rescaler *)

Lemma truediv_ok (a b : Q) : ~ b == 0 -> truediv a b = Ok (a / b).
Proof.
  intros Hb. unfold truediv. destruct (Qeq_bool b 0) eqn:E; [|reflexivity].
  apply Qeq_bool_eq in E. contradiction.
Qed.

Lemma truediv_by_zero (a b : Q) : b == 0 -> truediv a b = Raise ZeroDivisionError.
Proof.
  intros Hb. unfold truediv. now rewrite (Qeq_eq_bool _ _ Hb).
Qed.

Lemma rescale_fixed_size (x min_value max_value min_output max_output : Q) :
  max_output == min_output ->
  rescale_weight x min_value max_value min_output max_output = Ok min_output.
Proof.
  intros Heq. unfold rescale_weight. now rewrite (Qeq_eq_bool _ _ Heq).
Qed.

Lemma rescale_interpolates (x min_value max_value min_output max_output : Q) :
  ~ max_output == min_output ->
  ~ max_value == min_value ->
  rescale_weight x min_value max_value min_output max_output
  = Ok (min_output + (x - min_value) / (max_value - min_value) * (max_output - min_output)).
Proof.
  intros Hout Hin. unfold rescale_weight.
  destruct (Qeq_bool max_output min_output) eqn:E.
  - apply Qeq_bool_eq in E. contradiction.
  - rewrite truediv_ok; [reflexivity|]. intros Hz. apply Hin. lra.
Qed.

(** C2 (rescale degeneracy), as the code has it: with a degenerate input
    range [min_value == max_value] and an output range that is not a single
    point, [rescale_weight] raises [ZeroDivisionError] at every value
    instead of returning the least output. *)
Theorem rescale_degenerate_input_raises (x v lo hi : Q) :
  ~ hi == lo ->
  rescale_weight x v v lo hi = Raise ZeroDivisionError.
Proof.
  intros Hout. unfold rescale_weight.
  destruct (Qeq_bool hi lo) eqn:E.
  - apply Qeq_bool_eq in E. contradiction.
  - rewrite truediv_by_zero; [reflexivity | lra].
Qed.

Lemma rescale_degenerate_input_raises_witness :
  ~ 4 == 2 /\ rescale_weight 1 1 1 2 4 = Raise ZeroDivisionError.
Proof.
  split.
  - intros Heq. discriminate Heq.
  - apply (@rescale_degenerate_input_raises 1 1 2 4). intros Heq. discriminate Heq.
Defined.

Lemma rescale_at_min (min_value max_value min_output max_output : Q) :
  min_value < max_value ->
  exists v, rescale_weight min_value min_value max_value min_output max_output = Ok v
            /\ v == min_output.
Proof.
  intros Hrange. destruct (Qeq_dec max_output min_output) as [Heq|Hne].
  - exists min_output. split; [now apply rescale_fixed_size | reflexivity].
  - eexists. split; [apply rescale_interpolates; [exact Hne | lra]|]. field. lra.
Qed.


Lemma rescale_monotone (min_value max_value min_output max_output x y : Q) :
  min_value < max_value ->
  min_output <= max_output ->
  x <= y ->
  exists vx vy,
    rescale_weight x min_value max_value min_output max_output = Ok vx /\
    rescale_weight y min_value max_value min_output max_output = Ok vy /\
    vx <= vy.
Proof.
  intros Hrange Hout Hxy. destruct (Qeq_dec max_output min_output) as [Heq|Hne].
  - exists min_output, min_output.
    repeat split; try (now apply rescale_fixed_size). apply Qle_refl.
  - eexists. eexists.
    split; [apply rescale_interpolates; [exact Hne | lra]|].
    split; [apply rescale_interpolates; [exact Hne | lra]|].
    apply Qplus_le_compat; [apply Qle_refl|].
    apply Qmult_le_compat_r; [|lra].
    unfold Qdiv. apply Qmult_le_compat_r; [lra|].
    apply Qlt_le_weak, Qinv_lt_0_compat. lra.
Qed.




(** ** The colour assigner *)

Lemma skipn_nth_error {A} (p : list A) : forall i r,
  nth_error p i = Some r -> skipn i p = r :: skipn (S i) p.
Proof.
  induction p as [|a p IH]; intros [|i] r Hn; simpl in *; try discriminate.
  - now injection Hn as ->.
  - now apply IH.
Qed.

Lemma Forall2_In_left {A B} (R : A -> B -> Prop) (xs : list A) (ys : list B) x :
  Forall2 R xs ys -> In x xs -> exists y, In y ys /\ R x y.
Proof.
  induction 1 as [|x0 y0 xs ys HR HF IH]; intros Hin; [contradiction|].
  destruct Hin as [<-|Hin].
  - exists y0. split; [now left | exact HR].
  - destruct (IH Hin) as [y [Hy HRy]]. exists y. split; [now right | exact HRy].
Qed.

Lemma Forall2_In_right {A B} (R : A -> B -> Prop) (xs : list A) (ys : list B) y :
  Forall2 R xs ys -> In y ys -> exists x, In x xs /\ R x y.
Proof.
  induction 1 as [|x0 y0 xs ys HR HF IH]; intros Hin; [contradiction|].
  destruct Hin as [<-|Hin].
  - exists x0. split; [now left | exact HR].
  - destruct (IH Hin) as [x [Hx HRx]]. exists x. split; [now right | exact HRx].
Qed.

Section ColorAssigner.

Context {Micro Macro : Type} `{Hashable Micro} `{Hashable Macro}.

(** The loop of lines 74-79, started with the colours [d] already given out
    and the palette index [idx]. *)
Lemma selective_loop (inverse_map : Dict.t Macro (list Micro)) (palette : list rgba)
    (neutral : string) (items : list (Macro * list Micro)) :
  forall (d : Dict.t Macro color) (idx : nat),
    (forall c l, In (c, l) items -> Dict.get inverse_map c = Some l) ->
    NoDup (Dict.keys d ++ map fst items) ->
    (idx + List.length (filter (fun l => (1 <? len l)%Z) (map snd items))
     <= List.length palette)%nat ->
    exists d',
      for_each
        (fun '(macro_colors_dict, index_color) macro_node =>
           micro_nodes <- Dict.getitem inverse_map macro_node ;;
           if (1 <? len micro_nodes)%Z then
             c <- index palette index_color ;;
             Ok (Dict.set macro_colors_dict macro_node (RGBA c), S index_color)
           else
             Ok (Dict.set macro_colors_dict macro_node (Named neutral), index_color))
        (map fst items) (d, idx)
      = Ok (d ++ d',
            (idx + List.length (filter (fun l => (1 <? len l)%Z) (map snd items)))%nat)
      /\ Forall2 (painted neutral) items d'
      /\ palette_colors d'
         = map RGBA
             (firstn (List.length (filter (fun l => (1 <? len l)%Z) (map snd items)))
                (skipn idx palette)).
Proof.
  induction items as [|[c0 l0] items IH]; intros d idx Hinv Hnd Hlen.
  - exists []. simpl. rewrite app_nil_r, Nat.add_0_r. repeat split. constructor.
  - assert (Hfresh : ~ In c0 (Dict.keys d)).
    { simpl in Hnd. intros Hin. apply NoDup_remove_2 in Hnd. apply Hnd.
      apply in_or_app. now left. }
    assert (Hnd' : forall col, NoDup (Dict.keys (d ++ [(c0, col)]) ++ map fst items)).
    { intros col. unfold Dict.keys. rewrite map_app. simpl. now rewrite <- app_assoc. }
    assert (Hinv' : forall c l, In (c, l) items -> Dict.get inverse_map c = Some l).
    { intros c l Hcl. apply Hinv. now right. }
    cbn [map fst snd for_each]. unfold Dict.getitem at 1.
    rewrite (Hinv c0 l0 (or_introl eq_refl)). cbn [rbind].
    cbn [map fst snd filter] in Hlen |- *.
    destruct (1 <? len l0)%Z eqn:Ebig; cbn [List.length] in Hlen |- *.
    + destruct (nth_error palette idx) as [r|] eqn:Hr.
      2:{ apply nth_error_None in Hr. lia. }
      assert (Hidx : index palette idx = Ok r) by (unfold index; now rewrite Hr).
      rewrite Hidx. cbn [rbind].
      rewrite DictFacts.set_fresh by exact Hfresh.
      destruct (IH (d ++ [(c0, RGBA r)]) (S idx) Hinv' (Hnd' _)) as [d' [Hrun [HF Hpal]]];
        [lia|].
      exists ((c0, RGBA r) :: d'). split; [|split].
      * rewrite Hrun. rewrite <- app_assoc. simpl. f_equal. f_equal. lia.
      * constructor; [|exact HF]. unfold painted. simpl. rewrite Ebig. split; reflexivity.
      * unfold palette_colors, Dict.values in *. cbn [map snd filter is_rgba].
        rewrite Hpal. rewrite (skipn_nth_error _ _ Hr). reflexivity.
    + rewrite DictFacts.set_fresh by exact Hfresh.
      destruct (IH (d ++ [(c0, Named neutral)]) idx Hinv' (Hnd' _)) as [d' [Hrun [HF Hpal]]];
        [lia|].
      exists ((c0, Named neutral) :: d'). split; [|split].
      * cbn [rbind]. rewrite Hrun. now rewrite <- app_assoc.
      * constructor; [|exact HF]. unfold painted. simpl. rewrite Ebig. split; reflexivity.
      * unfold palette_colors, Dict.values in *. cbn [map snd filter is_rgba].
        exact Hpal.
Qed.

Lemma np_linspace01_length (num : nat) : List.length (np_linspace01 num) = num.
Proof.
  unfold np_linspace01. now rewrite length_map, length_seq.
Qed.

(** The selective mode as a whole, over the keys of the coarse position
    map. *)
Lemma selective_run (opts : Options) (G_macro : Graph Macro)
    (inverse_map : Dict.t Macro (list Micro)) :
  all_colorful opts = false ->
  Dict.wf inverse_map ->
  exists colors,
    macro_colors_dict opts G_macro inverse_map (Dict.keys inverse_map) = Ok colors
    /\ Forall2 (painted (nc opts)) inverse_map colors
    /\ palette_colors colors
       = map (fun x => RGBA (node_cmap opts x))
           (np_linspace01 (number_of_big_macro_nodes inverse_map)).
Proof.
  intros Hmode Hwf. unfold macro_colors_dict. rewrite Hmode.
  set (palette := map (node_cmap opts) (np_linspace01 (number_of_big_macro_nodes inverse_map))).
  destruct (@selective_loop inverse_map palette (nc opts) inverse_map Dict.empty O)
    as [colors [Hrun [HF Hpal]]].
  - intros c l. now apply DictFacts.in_get.
  - exact Hwf.
  - unfold palette. rewrite length_map, np_linspace01_length. apply Nat.le_refl.
  - exists colors. unfold Dict.keys. rewrite Hrun. cbn [rbind fst app Dict.empty].
    split; [reflexivity|]. split; [exact HF|].
    rewrite Hpal. cbn [skipn].
    replace (List.length (filter (fun l => (1 <? len l)%Z) (map snd inverse_map)))
      with (List.length palette).
    + rewrite firstn_all. unfold palette. now rewrite map_map.
    + unfold palette. now rewrite length_map, np_linspace01_length.
Qed.

Lemma painted_keys (neutral : string) (items : list (Macro * list Micro))
    (colors : Dict.t Macro color) :
  Forall2 (painted neutral) items colors -> Dict.keys colors = map fst items.
Proof.
  induction 1 as [|item entry items colors [Hk _] HF IH]; [reflexivity|].
  unfold Dict.keys in *. simpl. now rewrite Hk, IH.
Qed.

Lemma filter_empty_all_false {A} (f : A -> bool) (xs : list A) :
  List.length (filter f xs) = O -> forall x, In x xs -> f x = false.
Proof.
  induction xs as [|a xs IH]; intros Hlen x Hin; [contradiction|].
  simpl in Hlen. destruct (f a) eqn:Ea; [discriminate|].
  destruct Hin as [<-|Hin]; [exact Ea | now apply IH].
Qed.

(** C10 (selective mode, no merged node).  When no coarse node has more
    than one member, the palette is empty, the loop of lines 70-79 still
    ends normally, and every coarse node gets the neutral colour [nc]. *)
Theorem selective_no_merged_node (opts : Options) (G_macro : Graph Macro)
    (inverse_map : Dict.t Macro (list Micro)) (pos_micro : Dict.t Micro pos)
    (position : Dict.t Macro ndarray) :
  all_colorful opts = false ->
  Dict.wf inverse_map ->
  pos_macro inverse_map pos_micro = Ok position ->
  number_of_big_macro_nodes inverse_map = O ->
  map (node_cmap opts) (np_linspace01 (number_of_big_macro_nodes inverse_map)) = []
  /\ exists colors,
       macro_colors_dict opts G_macro inverse_map (Dict.keys position) = Ok colors /\
       Dict.keys colors = Dict.keys inverse_map /\
       forall c, In c (Dict.keys inverse_map) ->
         Dict.get colors c = Some (Named (nc opts)).
Proof.
  intros Hmode Hwf Hpos Hk. split; [now rewrite Hk|].
  rewrite (pos_macro_keys pos_micro Hwf Hpos).
  destruct (selective_run opts G_macro Hmode Hwf) as [colors [Hrun [HF _]]].
  assert (Hkeys : Dict.keys colors = Dict.keys inverse_map)
    by (eapply painted_keys; exact HF).
  assert (Hwfc : Dict.wf colors) by (unfold Dict.wf; now rewrite Hkeys).
  exists colors. split; [exact Hrun|]. split; [exact Hkeys|].
  intros c Hc. unfold Dict.keys in Hc. apply in_map_iff in Hc as [[c' l] [Hfst Hin]].
  simpl in Hfst. subst c'.
  destruct (@Forall2_In_left _ _ _ _ _ (c, l) HF Hin) as [[c' col] [Hinc [Hkc Hcol]]].
  simpl in Hkc, Hcol. subst c'.
  rewrite (filter_empty_all_false (fun l => (1 <? len l)%Z) _ Hk l) in Hcol.
  - subst col. now apply DictFacts.in_get.
  - unfold Dict.values. change l with (snd (c, l)). now apply in_map.
Qed.

(** The loop of lines 83-84, started from the partial result [acc]. *)
Lemma micro_colors_loop (forward_map : Dict.t Micro Macro) (colors : Dict.t Macro color)
    (fine_nodes : list Micro) :
  forall acc : Dict.t Micro color,
    (forall f, In f fine_nodes ->
       exists c col, Dict.get forward_map f = Some c /\ Dict.get colors c = Some col) ->
    exists assigned,
      for_each
        (fun micro_colors_dict micro_node =>
           macro_node <- Dict.getitem forward_map micro_node ;;
           c <- Dict.getitem colors macro_node ;;
           Ok (Dict.set micro_colors_dict micro_node c))
        fine_nodes acc = Ok assigned
      /\ (forall f, In f fine_nodes ->
            exists c col, Dict.get forward_map f = Some c /\
                          Dict.get colors c = Some col /\
                          Dict.get assigned f = Some col)
      /\ (forall f, ~ In f fine_nodes -> Dict.get assigned f = Dict.get acc f).
Proof.
  induction fine_nodes as [|f0 fine_nodes IH]; intros acc Hall.
  - exists acc. simpl. repeat split; tauto.
  - destruct (Hall f0 (or_introl eq_refl)) as [c0 [col0 [Hc0 Hcol0]]].
    destruct (IH (Dict.set acc f0 col0)) as [assigned [Hrun [Hin Hout]]].
    { intros f Hf. apply Hall. now right. }
    exists assigned. cbn [for_each]. unfold Dict.getitem at 1 2.
    rewrite Hc0. cbn [rbind]. rewrite Hcol0. cbn [rbind].
    split; [exact Hrun|]. split.
    + intros f Hf. destruct (in_dec key_eq_dec f fine_nodes) as [Hin'|Hnot].
      * now apply Hin.
      * destruct Hf as [<-|Hf]; [|contradiction].
        exists c0, col0. repeat split; try assumption.
        rewrite (Hout f0 Hnot). apply DictFacts.get_set_same.
    + intros f Hf. simpl in Hf. rewrite Hout by tauto.
      apply DictFacts.get_set_other. intros ->. tauto.
Qed.

(** C8 (colour consistency).  When every fine node of the position map has
    a coarse node and that coarse node has a colour, the loop of lines 82-84
    ends normally, and the colour it gives a fine node of the position map
    is the colour of its coarse node: forward-map lookup, then colour-map
    lookup. *)
Theorem color_consistency (pos_micro : Dict.t Micro pos)
    (forward_map : Dict.t Micro Macro) (colors : Dict.t Macro color) :
  (forall f, In f (Dict.keys pos_micro) ->
     exists c col, Dict.get forward_map f = Some c /\ Dict.get colors c = Some col) ->
  exists assigned,
    micro_colors_dict pos_micro forward_map colors = Ok assigned /\
    forall f, In f (Dict.keys pos_micro) ->
      exists c col, Dict.get forward_map f = Some c /\
                    Dict.get colors c = Some col /\
                    Dict.get assigned f = Some col.
Proof.
  intros Hall.
  destruct (@micro_colors_loop forward_map colors (Dict.keys pos_micro) Dict.empty Hall)
    as [assigned [Hrun [Hin _]]].
  exists assigned. split; [exact Hrun | exact Hin].
Qed.

End ColorAssigner.

(** ** The routine as a whole *)

Section WholeRoutine.

Context {Micro Macro : Type} `{Hashable Micro} `{Hashable Macro}.

(** C1 (unresolved helper names).  Run with the global names the module
    itself binds, [visualize_micro_macro] raises [NameError] at line 51 on
    every input, after the figure has been created and before any map is
    built or anything is drawn: neither helper name resolves in the module's
    globals or in the builtins. *)
Theorem helper_names_unresolved (spring_layout : Graph Micro -> Dict.t Micro pos)
    (G_micro : Graph Micro) (mapping : @DataFrame Micro Macro) (G_macro : Graph Macro)
    (opts : Options) :
  @load_global Micro Macro module_globals "get_micro2macro_dict_from_pd_df"
  = Raise (NameError "get_micro2macro_dict_from_pd_df")
  /\ @load_global Micro Macro module_globals "get_macro2microlist_dict_from_micro2macro_dict"
     = Raise (NameError "get_macro2microlist_dict_from_micro2macro_dict")
  /\ visualize_micro_macro module_globals spring_layout G_micro mapping G_macro opts
     = (Subplots :: match method_title opts with
                    | Some title => [Suptitle title]
                    | None => []
                    end,
        Raise (NameError "get_micro2macro_dict_from_pd_df")).
Proof.
  split; [reflexivity|]. split; [reflexivity|].
  unfold visualize_micro_macro. destruct (method_title opts); reflexivity.
Qed.

(** C9 (empty graphs), as the code has it.  With the two helpers supplied,
    on a fine graph, a mapping and a coarse graph that are all empty, the
    routine draws the empty fine panel (the edge-weight scan of lines 96-100
    runs over nothing) and then raises [ValueError] at line 125, where
    [max] is applied to the empty list of member counts. *)
Theorem empty_graphs_raise (spring_layout : Graph Micro -> Dict.t Micro pos)
    (opts : Options) :
  spring_layout empty_graph = Dict.empty ->
  @weight_range Micro (edges empty_graph) = (1000000000, -1000000000)
  /\ py_max (map (fun l : list Micro => len l)
              (Dict.values
                 (get_macro2microlist_dict_from_micro2macro_dict
                    (get_micro2macro_dict_from_pd_df (@nil (Micro * Macro))))))
     = Raise ValueError
  /\ visualize_micro_macro globals_with_helpers spring_layout
       empty_graph [] empty_graph opts
     = (Subplots :: match method_title opts with
                    | Some title => [Suptitle title]
                    | None => []
                    end
        ++ [DrawMicro empty_graph Dict.empty (min_ns opts) [] (nec opts)],
        Raise ValueError).
Proof.
  intros Hlayout. split; [reflexivity|]. split; [reflexivity|].
  unfold visualize_micro_macro, macro_colors_dict. rewrite Hlayout.
  destruct (method_title opts); destruct (all_colorful opts); reflexivity.
Qed.

End WholeRoutine.

(** ** The end-to-end scenario *)

Ltac solve_wf :=
  unfold Dict.wf; vm_compute; repeat constructor; simpl; intuition discriminate.

Lemma scenario_inverse_eq :
  scenario_inverse = [("A", [1; 2]%Z); ("B", [3; 4]%Z)]%string.
Proof. reflexivity. Qed.

Lemma scenario_inverse_wf : Dict.wf scenario_inverse.
Proof. solve_wf. Qed.



(** With a single line width the scenario runs to the end: both panels and
    all three edges are drawn, and the figure is shown. *)
Lemma scenario_run_fixed_width :
  exists drawn,
    visualize_micro_macro globals_with_helpers scenario_layout
      scenario_G_micro scenario_mapping scenario_G_macro
      {| min_ns := 60; max_ns := 300; min_lw := 3; max_lw := 3;
         ec := ".7"; nc := "w"; nec := "steelblue";
         all_colorful := true; node_cmap := Set2; method_title := None |}
    = (drawn ++ [PltShow], Ok tt)
    /\ List.length drawn = 8%nat.
Proof.
  eexists [_; _; _; _; _; _; _; _]. split; [vm_compute|]; reflexivity.
Qed.

(** The scenario run with the default options: the coarse nodes are drawn
    with size 300, and the run then stops at line 169, where the only coarse
    edge makes the range of coarse edge weights degenerate. *)
Lemma scenario_run :
  exists drawn positions colors,
    visualize_micro_macro globals_with_helpers scenario_layout
      scenario_G_micro scenario_mapping scenario_G_macro default_options
    = (drawn ++ [DrawMacro scenario_G_macro positions [300; 300] colors "steelblue"],
       Raise ZeroDivisionError).
Proof.
  eexists [_; _; _; _]. eexists. eexists. vm_compute. reflexivity.
Qed.

(** ** Nine merged pairs under the default palette *)

(** C7 (selective colouring), evaluated where it fails.  With the default
    palette ['Set2'] and nine coarse nodes of two members each, the
    selective mode takes nine samples of the eight-entry palette; the
    samples 7/8 and 1 select the same last entry, so the merged coarse
    nodes 7 and 8 are given one and the same colour: nine coarse nodes
    with more than one member share eight colours. *)
Theorem nine_pairs_share_a_color :
  exists position colors,
    pos_macro nine_pairs_inverse nine_pairs_layout = Ok position
    /\ macro_colors_dict selective_options nine_pairs_G_macro nine_pairs_inverse
         (Dict.keys position) = Ok colors
    /\ number_of_big_macro_nodes nine_pairs_inverse = 9%nat
    /\ Dict.get nine_pairs_inverse 7%Z = Some [14; 15]%Z
    /\ Dict.get nine_pairs_inverse 8%Z = Some [16; 17]%Z
    /\ Dict.get colors 7%Z = Some (RGBA (rgb255 179 179 179))
    /\ Dict.get colors 8%Z = Some (RGBA (rgb255 179 179 179))
    /\ map snd colors
       = map RGBA
           [ rgb255 102 194 165; rgb255 252 141 98; rgb255 141 160 203;
             rgb255 231 138 195; rgb255 166 216 84; rgb255 255 217 47;
             rgb255 229 196 148; rgb255 179 179 179; rgb255 179 179 179 ].
Proof.
  eexists. eexists. split; [vm_compute; reflexivity|].
  split; [vm_compute; reflexivity|].
  repeat split; reflexivity.
Qed.

(** ** The properties at concrete inputs *)

Lemma centroid_correctness_witness :
  Dict.wf scenario_inverse
  /\ exists position,
       pos_macro scenario_inverse (scenario_layout scenario_G_micro) = Ok position
       /\ forall c l, Dict.get scenario_inverse c = Some l -> l <> [] ->
            exists ps x y,
              Forall2 (fun f p => Dict.get (scenario_layout scenario_G_micro) f = Some p) l ps
              /\ Dict.get position c = Some (Vec2 x y)
              /\ x == mean (map fst ps) /\ y == mean (map snd ps).
Proof.
  split; [exact scenario_inverse_wf|].
  apply (@centroid_correctness Z string _ _ scenario_inverse
           (scenario_layout scenario_G_micro) scenario_inverse_wf).
  intros c l f Hc Hf. rewrite scenario_inverse_eq in Hc. simpl in Hc.
  destruct (key_eq_dec c "A"%string); [|destruct (key_eq_dec c "B"%string)];
    try discriminate; injection Hc as <-; simpl in Hf;
    repeat (destruct Hf as [<-|Hf]; [eexists; reflexivity|]); contradiction.
Defined.

Lemma singletons_inverse_wf : Dict.wf singletons_inverse.
Proof. solve_wf. Qed.

Lemma selective_no_merged_node_witness :
  all_colorful selective_options = false
  /\ Dict.wf singletons_inverse
  /\ number_of_big_macro_nodes singletons_inverse = O
  /\ exists position colors,
       pos_macro singletons_inverse (scenario_layout scenario_G_micro) = Ok position
       /\ macro_colors_dict selective_options scenario_G_macro singletons_inverse
            (Dict.keys position) = Ok colors
       /\ forall c, In c (Dict.keys singletons_inverse) ->
            Dict.get colors c = Some (Named (nc selective_options)).
Proof.
  split; [reflexivity|]. split; [exact singletons_inverse_wf|]. split; [reflexivity|].
  destruct (pos_macro singletons_inverse (scenario_layout scenario_G_micro))
    as [position|e] eqn:Hpos; [|vm_compute in Hpos; discriminate Hpos].
  destruct (@selective_no_merged_node Z string _ _ selective_options scenario_G_macro
              singletons_inverse (scenario_layout scenario_G_micro) position
              eq_refl singletons_inverse_wf Hpos eq_refl)
    as [_ [colors [Hrun [_ Hall]]]].
  exists position, colors. repeat split; assumption.
Defined.

Lemma color_consistency_witness :
  exists assigned,
    micro_colors_dict (scenario_layout scenario_G_micro)
      (get_micro2macro_dict_from_pd_df scenario_mapping)
      [("A"%string, Named "w"); ("B"%string, Named "k")] = Ok assigned
    /\ Dict.get assigned 3%Z = Some (Named "k").
Proof.
  destruct (@color_consistency Z string _ _ (scenario_layout scenario_G_micro)
              (get_micro2macro_dict_from_pd_df scenario_mapping)
              [("A"%string, Named "w"); ("B"%string, Named "k")])
    as [assigned [Hrun Hall]].
  - intros f Hf. simpl in Hf.
    repeat (destruct Hf as [<-|Hf]; [eexists; eexists; split; reflexivity|]).
    contradiction.
  - exists assigned. split; [exact Hrun|].
    destruct (Hall 3%Z) as [c [col [Hc [Hcol Hget]]]]; [simpl; tauto|].
    vm_compute in Hc. injection Hc as <-.
    vm_compute in Hcol. injection Hcol as <-. exact Hget.
Defined.

Lemma empty_graphs_raise_witness :
  scenario_layout empty_graph = Dict.empty
  /\ visualize_micro_macro (Macro := string) globals_with_helpers scenario_layout
       empty_graph [] empty_graph default_options
     = ([Subplots; DrawMicro empty_graph Dict.empty 60 [] "steelblue"],
        Raise ValueError).
Proof.
  split; [reflexivity|].
  apply (@empty_graphs_raise Z string _ _ scenario_layout default_options eq_refl).
Defined.

(** * Further properties of the routine *)

(** ** [rescale_weight] on and off its range *)

Lemma rescale_not_below (x min_value max_value min_output max_output : Q) :
  min_value < max_value ->
  min_output <= max_output ->
  min_value <= x ->
  exists v, rescale_weight x min_value max_value min_output max_output = Ok v
            /\ min_output <= v.
Proof.
  intros Hrange Hout Hlo.
  destruct (rescale_at_min min_output max_output Hrange) as [vmin [Hmin Emin]].
  destruct (@rescale_monotone min_value max_value min_output max_output min_value x
              Hrange Hout Hlo) as [a [v [Ha [Hv Hav]]]].
  exists v. split; [exact Hv|].
  assert (a = vmin) by congruence. subst. lra.
Qed.

(** X1.  On an input range with [min_value < max_value] and an output range
    with [min_output <= max_output], a value that is not below [min_value]
    is rescaled, without error, to a size that is not below
    [min_output]. *)
Theorem rescale_not_below_min_output (x min_value max_value min_output max_output : Q) :
  min_value < max_value ->
  min_output <= max_output ->
  min_value <= x ->
  exists v, rescale_weight x min_value max_value min_output max_output = Ok v
            /\ min_output <= v.
Proof.
  intros Hrange Hout Hx. now apply rescale_not_below.
Qed.

Lemma rescale_not_below_min_output_witness :
  1 < 2 /\ 2 <= 4 /\ 1 <= 3 # 2
  /\ exists v, rescale_weight (3 # 2) 1 2 2 4 = Ok v /\ 2 <= v.
Proof.
  assert (H12 : 1 < 2) by reflexivity.
  assert (H24 : 2 <= 4) by (intros Hc; discriminate Hc).
  assert (Hx : 1 <= 3 # 2) by (intros Hc; discriminate Hc).
  repeat split; try assumption.
  apply (@rescale_not_below_min_output (3 # 2) 1 2 2 4 H12 H24 Hx).
Defined.

(** X2.  With an inverted output range ([max_output <= min_output]) the
    rescaling is non-increasing in its value argument. *)
Theorem rescale_inverted_antitone (min_value max_value min_output max_output x y : Q) :
  min_value < max_value ->
  max_output <= min_output ->
  x <= y ->
  exists vx vy,
    rescale_weight x min_value max_value min_output max_output = Ok vx /\
    rescale_weight y min_value max_value min_output max_output = Ok vy /\
    vy <= vx.
Proof.
  intros Hrange Hout Hxy. destruct (Qeq_dec max_output min_output) as [Heq|Hne].
  - exists min_output, min_output.
    repeat split; try (now apply rescale_fixed_size). apply Qle_refl.
  - eexists. eexists.
    split; [apply rescale_interpolates; [exact Hne | lra]|].
    split; [apply rescale_interpolates; [exact Hne | lra]|].
    assert (Hr : (x - min_value) / (max_value - min_value)
                 <= (y - min_value) / (max_value - min_value)).
    { unfold Qdiv. apply Qmult_le_compat_r; [lra|].
      apply Qlt_le_weak, Qinv_lt_0_compat. lra. }
    assert (Hm : (x - min_value) / (max_value - min_value) * (min_output - max_output)
                 <= (y - min_value) / (max_value - min_value) * (min_output - max_output)).
    { apply Qmult_le_compat_r; [exact Hr | lra]. }
    set (rx := (x - min_value) / (max_value - min_value)) in *.
    set (ry := (y - min_value) / (max_value - min_value)) in *.
    lra.
Qed.

Lemma rescale_inverted_antitone_witness :
  1 < 2 /\ 2 <= 4 /\ 1 <= 2
  /\ exists vx vy, rescale_weight 1 1 2 4 2 = Ok vx /\ rescale_weight 2 1 2 4 2 = Ok vy
                   /\ vy <= vx.
Proof.
  assert (H12 : 1 < 2) by reflexivity.
  assert (H24 : 2 <= 4) by (intros Hc; discriminate Hc).
  assert (Hxy : 1 <= 2) by (intros Hc; discriminate Hc).
  repeat split; try assumption.
  apply (@rescale_inverted_antitone 1 2 4 2 1 2 H12 H24 Hxy).
Defined.

(** ** The edge-weight scan *)

Lemma py_min2_cases (a b : Q) :
  (py_min2 a b = a /\ a <= b) \/ (py_min2 a b = b /\ b <= a).
Proof.
  unfold py_min2. destruct (Qle_bool a b) eqn:E.
  - left. split; [reflexivity | now apply Qle_bool_iff].
  - right. split; [reflexivity|].
    destruct (Qlt_le_dec b a) as [Hlt|Hle]; [now apply Qlt_le_weak|].
    apply Qle_bool_iff in Hle. congruence.
Qed.

Lemma py_max2_cases (a b : Q) :
  (py_max2 a b = a /\ b <= a) \/ (py_max2 a b = b /\ a <= b).
Proof.
  unfold py_max2. destruct (Qle_bool b a) eqn:E.
  - left. split; [reflexivity | now apply Qle_bool_iff].
  - right. split; [reflexivity|].
    destruct (Qlt_le_dec a b) as [Hlt|Hle]; [now apply Qlt_le_weak|].
    apply Qle_bool_iff in Hle. congruence.
Qed.

(** The scan of lines 98-100, started from the running least and largest
    weights [lo0] and [hi0]. *)
Lemma weight_scan {N} (es : list (N * N * Q)) : forall lo0 hi0 : Q,
  let r :=
    fold_left
      (fun '(min_weight, max_weight) (edge : N * N * Q) =>
         (py_min2 min_weight (snd edge), py_max2 max_weight (snd edge)))
      es (lo0, hi0) in
  fst r <= lo0 /\ hi0 <= snd r
  /\ Forall (fun edge => fst r <= snd edge <= snd r) es
  /\ (fst r = lo0 \/ exists edge, In edge es /\ fst r = snd edge)
  /\ (snd r = hi0 \/ exists edge, In edge es /\ snd r = snd edge).
Proof.
  induction es as [|e es IH]; intros lo0 hi0; cbn [fold_left].
  - simpl. split; [apply Qle_refl|]. split; [apply Qle_refl|].
    split; [constructor|]. split; now left.
  - specialize (IH (py_min2 lo0 (snd e)) (py_max2 hi0 (snd e))).
    cbv zeta in IH |- *.
    set (r := fold_left _ es _) in *.
    destruct IH as [Hlo [Hhi [Hall [Hmin Hmax]]]].
    destruct (py_min2_cases lo0 (snd e)) as [[Em Hm]|[Em Hm]];
      destruct (py_max2_cases hi0 (snd e)) as [[Ex Hx]|[Ex Hx]];
      rewrite Em in Hlo, Hmin; rewrite Ex in Hhi, Hmax;
      (split; [lra|]); (split; [lra|]);
      (split; [constructor; [split; lra | exact Hall]|]);
      (split;
       [ destruct Hmin as [Hmin|[e' [He' Hmin]]];
         [ first [ now left | right; exists e; split; [now left | exact Hmin] ]
         | right; exists e'; split; [now right | exact Hmin] ]
       | destruct Hmax as [Hmax|[e' [He' Hmax]]];
         [ first [ now left | right; exists e; split; [now left | exact Hmax] ]
         | right; exists e'; split; [now right | exact Hmax] ] ]).
Qed.

Lemma weight_range_encloses {N} (es : list (N * N * Q)) :
  Forall (fun edge => fst (weight_range es) <= snd edge <= snd (weight_range es)) es.
Proof.
  unfold weight_range.
  now destruct (weight_scan es 1000000000 (-1000000000)) as [_ [_ [Hall _]]].
Qed.

Lemma weight_range_of_edges {N} (es : list (N * N * Q)) :
  es <> [] ->
  Forall (fun edge => -1000000000 <= snd edge <= 1000000000) es ->
  (exists edge, In edge es /\ fst (weight_range es) == snd edge)
  /\ (exists edge, In edge es /\ snd (weight_range es) == snd edge).
Proof.
  intros Hne Hbound. unfold weight_range.
  destruct (weight_scan es 1000000000 (-1000000000)) as [Hlo [Hhi [Hall [Hmin Hmax]]]].
  cbv zeta in *. set (r := fold_left _ es _) in *.
  destruct es as [|e0 es']; [congruence|].
  inversion Hall as [|? ? [He0lo He0hi] _]; subst.
  inversion Hbound as [|? ? [Hb0lo Hb0hi] _]; subst.
  split.
  - destruct Hmin as [Hmin|[e [He Hmin]]].
    + exists e0. split; [now left|]. rewrite Hmin in *. lra.
    + exists e. split; [exact He | now rewrite Hmin].
  - destruct Hmax as [Hmax|[e [He Hmax]]].
    + exists e0. split; [now left|]. rewrite Hmax in *. lra.
    + exists e. split; [exact He | now rewrite Hmax].
Qed.

(** X3.  Every edge weight lies between the least and the largest weight
    the scan of lines 96-100 returns; the least is at most the initial
    1000000000 and the largest at least the initial -1000000000. *)
Theorem weight_range_bounds {N} (es : list (N * N * Q)) :
  Forall (fun edge => fst (weight_range es) <= snd edge <= snd (weight_range es)) es
  /\ fst (weight_range es) <= 1000000000
  /\ -1000000000 <= snd (weight_range es).
Proof.
  unfold weight_range.
  destruct (weight_scan es 1000000000 (-1000000000)) as [Hlo [Hhi [Hall _]]].
  repeat split; assumption.
Qed.

(** X4.  On a graph with at least one edge whose weights all lie between
    -1000000000 and 1000000000, the two results of the scan are the weights
    of edges of the graph. *)
Theorem weight_range_attained {N} (es : list (N * N * Q)) :
  es <> [] ->
  Forall (fun edge => -1000000000 <= snd edge <= 1000000000) es ->
  (exists edge, In edge es /\ fst (weight_range es) == snd edge)
  /\ (exists edge, In edge es /\ snd (weight_range es) == snd edge).
Proof.
  intros Hne Hbound. now apply weight_range_of_edges.
Qed.

Lemma weight_range_attained_witness :
  (exists edge, In edge (edges scenario_G_micro)
                /\ fst (weight_range (edges scenario_G_micro)) == snd edge)
  /\ (exists edge, In edge (edges scenario_G_micro)
                   /\ snd (weight_range (edges scenario_G_micro)) == snd edge).
Proof.
  apply (@weight_range_attained Z (edges scenario_G_micro)).
  - discriminate.
  - repeat constructor; simpl; intros Hc; discriminate Hc.
Defined.

(** ** Drawing the edges *)

Lemma rescale_degenerate (x min_value max_value lo hi : Q) :
  max_value == min_value ->
  ~ hi == lo ->
  rescale_weight x min_value max_value lo hi = Raise ZeroDivisionError.
Proof.
  intros Hin Hout. unfold rescale_weight.
  destruct (Qeq_bool hi lo) eqn:E.
  - apply Qeq_bool_eq in E. contradiction.
  - rewrite truediv_by_zero; [reflexivity | lra].
Qed.

Section EdgeDrawing.

Context {Micro Macro N : Type}.

Lemma call_drawing_ok {A} (globals : @namespace Micro Macro) (module : string)
    (args : result A) (draw : A -> @event Micro Macro) o a :
  load_global globals module = Ok o ->
  args = Ok a ->
  call_drawing globals module args draw = ([draw a], Ok tt).
Proof.
  intros Hm Ha. unfold call_drawing, io_bind, lift, emit. now rewrite Hm, Ha.
Qed.

Lemma call_drawing_raise {A} (globals : @namespace Micro Macro) (module : string)
    (args : result A) (draw : A -> @event Micro Macro) o e :
  load_global globals module = Ok o ->
  args = Raise e ->
  call_drawing globals module args draw = ([], Raise e).
Proof.
  intros Hm Ha. unfold call_drawing, io_bind, lift, emit. now rewrite Hm, Ha.
Qed.

Lemma draw_edges_cons_ok (globals : @namespace Micro Macro)
    (draw : N * N * Q -> Q -> @event Micro Macro) (rescale : Q -> result Q)
    (edge : N * N * Q) (es : list (N * N * Q)) o width t r :
  load_global globals "nx" = Ok o ->
  rescale (snd edge) = Ok width ->
  draw_edges globals draw rescale es = (t, r) ->
  draw_edges globals draw rescale (edge :: es) = (draw edge width :: t, r).
Proof.
  intros Hnx Hw Hrest. cbn [draw_edges].
  rewrite call_drawing_ok with (o := o) (a := width); [|exact Hnx|exact Hw].
  unfold io_bind. now rewrite Hrest.
Qed.

(** The loop of lines 114-120 when no weight is below the least weight of
    a proper range. *)
Lemma draw_edges_in_range (globals : @namespace Micro Macro)
    (draw : N * N * Q -> Q -> @event Micro Macro) (min_weight max_weight lo hi : Q)
    (es : list (N * N * Q)) o :
  load_global globals "nx" = Ok o ->
  min_weight < max_weight ->
  lo <= hi ->
  Forall (fun edge => min_weight <= snd edge) es ->
  exists widths,
    draw_edges globals draw
      (fun weight => rescale_weight weight min_weight max_weight lo hi) es
    = (map (fun p => draw (fst p) (snd p)) (combine es widths), Ok tt)
    /\ List.length widths = List.length es
    /\ Forall (fun width => lo <= width) widths.
Proof.
  intros Hnx Hrange Hout Hall. induction Hall as [|e es He Hall IH].
  - exists []. repeat split. constructor.
  - destruct IH as [widths [Hrun [Hlen Hin]]].
    destruct (@rescale_not_below (snd e) min_weight max_weight lo hi Hrange Hout He)
      as [w [Hw Hwin]].
    exists (w :: widths). split; [|split].
    + cbn [combine map fst snd].
      apply (@draw_edges_cons_ok globals draw _ e es o w _ _ Hnx Hw Hrun).
    + simpl. now rewrite Hlen.
    + now constructor.
Qed.

(** X5.  When the graph has two edges of different weights and
    [min_lw <= max_lw], the loop of lines 114-120 (and 165-171) ends
    normally and draws every edge once, in order, with a width that is not
    below [min_lw]. *)
Theorem draw_edges_all_drawn (globals : @namespace Micro Macro)
    (draw : N * N * Q -> Q -> @event Micro Macro) (lo hi : Q)
    (es : list (N * N * Q)) o :
  load_global globals "nx" = Ok o ->
  (exists e1 e2, In e1 es /\ In e2 es /\ snd e1 < snd e2) ->
  lo <= hi ->
  exists widths,
    draw_edges globals draw
      (fun weight =>
         rescale_weight weight (fst (weight_range es)) (snd (weight_range es)) lo hi) es
    = (map (fun p => draw (fst p) (snd p)) (combine es widths), Ok tt)
    /\ List.length widths = List.length es
    /\ Forall (fun width => lo <= width) widths.
Proof.
  intros Hnx [e1 [e2 [H1 [H2 Hlt]]]] Hout.
  pose proof (weight_range_encloses es) as Hall.
  apply (@draw_edges_in_range globals draw _ _ lo hi es o Hnx); try assumption.
  - rewrite Forall_forall in Hall.
    destruct (Hall e1 H1) as [Ha _]. destruct (Hall e2 H2) as [_ Hb]. lra.
  - eapply Forall_impl; [|exact Hall]. intros e He. apply He.
Qed.

(** X6.  When the graph has at least one edge, all its edges have the same
    weight (between -1000000000 and 1000000000) and [min_lw] differs from
    [max_lw], the loop of lines 114-120 (and 165-171) draws no edge: the
    first call of [rescale_weight] raises [ZeroDivisionError]. *)
Theorem draw_edges_equal_weights_raise (globals : @namespace Micro Macro)
    (draw : N * N * Q -> Q -> @event Micro Macro) (lo hi weight : Q)
    (es : list (N * N * Q)) o :
  load_global globals "nx" = Ok o ->
  es <> [] ->
  Forall (fun edge => snd edge == weight) es ->
  -1000000000 <= weight <= 1000000000 ->
  ~ hi == lo ->
  draw_edges globals draw
    (fun w => rescale_weight w (fst (weight_range es)) (snd (weight_range es)) lo hi) es
  = ([], Raise ZeroDivisionError).
Proof.
  intros Hnx Hne Hsame Hbound Hout.
  assert (Hb : Forall (fun edge : N * N * Q => -1000000000 <= snd edge <= 1000000000) es).
  { rewrite Forall_forall in *. intros e He. rewrite (Hsame e He). exact Hbound. }
  destruct (weight_range_of_edges Hne Hb) as [[e1 [H1 Hmin]] [e2 [H2 Hmax]]].
  rewrite Forall_forall in Hsame.
  rewrite (Hsame e1 H1) in Hmin. rewrite (Hsame e2 H2) in Hmax.
  destruct es as [|e0 es']; [congruence|].
  cbn [draw_edges].
  erewrite call_drawing_raise; [reflexivity | exact Hnx |].
  apply rescale_degenerate; [|exact Hout]. now rewrite Hmin, Hmax.
Qed.

(** X7.  With a single line width ([max_lw == min_lw]) the loop of lines
    114-120 (and 165-171) draws every edge with width [min_lw], whatever
    the weights are. *)
Theorem draw_edges_fixed_width (globals : @namespace Micro Macro)
    (draw : N * N * Q -> Q -> @event Micro Macro) (lo hi : Q)
    (es : list (N * N * Q)) o :
  load_global globals "nx" = Ok o ->
  hi == lo ->
  draw_edges globals draw
    (fun w => rescale_weight w (fst (weight_range es)) (snd (weight_range es)) lo hi) es
  = (map (fun edge => draw edge lo) es, Ok tt).
Proof.
  intros Hnx Heq.
  generalize (fst (weight_range es)) (snd (weight_range es)). intros mn mx.
  induction es as [|e es IH]; [reflexivity|].
  cbn [map].
  apply (@draw_edges_cons_ok globals draw _ e es o lo _ _ Hnx); [|exact IH].
  now apply rescale_fixed_size.
Qed.

End EdgeDrawing.

(** ** The layout deriver on and off its preconditions *)

Lemma comprehension_getitem_cases {K V} `{Hashable K} (d : Dict.t K V) (ks : list K) :
  (exists vs, comprehension (Dict.getitem d) ks = Ok vs
              /\ Forall2 (fun k v => Dict.get d k = Some v) ks vs)
  \/ (comprehension (Dict.getitem d) ks = Raise KeyError
      /\ exists k, In k ks /\ Dict.get d k = None).
Proof.
  induction ks as [|k ks IH]; cbn [comprehension].
  - left. exists []. split; [reflexivity | constructor].
  - unfold Dict.getitem at 1 3. destruct (Dict.get d k) as [v|] eqn:Hk; cbn [rbind].
    + destruct IH as [[vs [Hvs HF]]|[Hraise [k' [Hin Hnone]]]].
      * left. exists (v :: vs). rewrite Hvs. split; [reflexivity | now constructor].
      * right. rewrite Hraise. split; [reflexivity|]. exists k'. split; [now right | exact Hnone].
    + right. split; [reflexivity|]. exists k. split; [now left | exact Hk].
Qed.

Section LayoutEdgeCases.

Context {Micro Macro : Type} `{Hashable Micro} `{Hashable Macro}.

(** The loop of lines 60-61 either completes, or stops with [KeyError] at a
    member that has no position. *)
Lemma pos_macro_loop_cases (pos_micro : Dict.t Micro pos)
    (items : list (Macro * list Micro)) :
  NoDup (map fst items) ->
  forall acc : Dict.t Macro ndarray,
    (exists pm,
       for_each
         (fun pos_macro '(macro_node, micro_nodes) =>
            ps <- comprehension (Dict.getitem pos_micro) micro_nodes ;;
            Ok (Dict.set pos_macro macro_node (np_mean_axis0 ps)))
         items acc = Ok pm
       /\ (forall c l, In (c, l) items ->
             exists ps, Forall2 (fun f p => Dict.get pos_micro f = Some p) l ps /\
                        Dict.get pm c = Some (np_mean_axis0 ps))
       /\ (forall c, ~ In c (map fst items) -> Dict.get pm c = Dict.get acc c))
    \/ (for_each
          (fun pos_macro '(macro_node, micro_nodes) =>
             ps <- comprehension (Dict.getitem pos_micro) micro_nodes ;;
             Ok (Dict.set pos_macro macro_node (np_mean_axis0 ps)))
          items acc = Raise KeyError
        /\ exists c l f, In (c, l) items /\ In f l /\ Dict.get pos_micro f = None).
Proof.
  induction items as [|[c0 l0] items IH]; intros Hnd acc.
  - left. exists acc. simpl. repeat split; tauto.
  - inversion Hnd as [|? ? Hfresh Hnd']; subst. cbn [for_each].
    destruct (comprehension_getitem_cases pos_micro l0)
      as [[ps0 [Hps0 HF0]]|[Hraise [f [Hf Hnone]]]].
    + rewrite Hps0. cbn [rbind].
      destruct (IH Hnd' (Dict.set acc c0 (np_mean_axis0 ps0)))
        as [[pm [Hrun [Hin Hout]]]|[Hrun [c [l [f [Hcl [Hf Hnone]]]]]]].
      * left. exists pm. split; [exact Hrun|]. split.
        -- intros c l [Heq|Hcl].
           ++ injection Heq as <- <-. exists ps0. split; [exact HF0|].
              rewrite (Hout c0 Hfresh). apply DictFacts.get_set_same.
           ++ now apply Hin.
        -- intros c Hc. simpl in Hc. rewrite Hout by tauto.
           apply DictFacts.get_set_other. intros ->. tauto.
      * right. split; [exact Hrun|]. exists c, l, f. repeat split; try assumption. now right.
    + right. rewrite Hraise. split; [reflexivity|].
      exists c0, l0, f. repeat split; try assumption. now left.
Qed.

Lemma pos_macro_sound (inverse_map : Dict.t Macro (list Micro))
    (pos_micro : Dict.t Micro pos) (position : Dict.t Macro ndarray) c l :
  Dict.wf inverse_map ->
  pos_macro inverse_map pos_micro = Ok position ->
  Dict.get inverse_map c = Some l ->
  exists ps, Forall2 (fun f p => Dict.get pos_micro f = Some p) l ps /\
             Dict.get position c = Some (np_mean_axis0 ps).
Proof.
  intros Hwf Hrun Hc. unfold pos_macro in Hrun.
  destruct (@pos_macro_loop_cases pos_micro (Dict.items inverse_map) Hwf Dict.empty)
    as [[pm [Hrun' [Hin _]]]|[Hraise _]].
  - rewrite Hrun' in Hrun. injection Hrun as <-.
    apply Hin. now apply DictFacts.get_some_in.
  - rewrite Hraise in Hrun. discriminate.
Qed.

(** X8.  If some fine node listed in the inverse map has no position, the
    loop of lines 59-61 raises [KeyError]. *)
Theorem pos_macro_missing_position_raises (inverse_map : Dict.t Macro (list Micro))
    (pos_micro : Dict.t Micro pos) :
  Dict.wf inverse_map ->
  (exists c l f, Dict.get inverse_map c = Some l /\ In f l /\ Dict.get pos_micro f = None) ->
  pos_macro inverse_map pos_micro = Raise KeyError.
Proof.
  intros Hwf [c [l [f [Hc [Hf Hnone]]]]]. unfold pos_macro.
  destruct (@pos_macro_loop_cases pos_micro (Dict.items inverse_map) Hwf Dict.empty)
    as [[pm [_ [Hin _]]]|[Hraise _]]; [|exact Hraise].
  destruct (Hin c l (DictFacts.get_some_in _ _ Hc)) as [ps [HF _]].
  destruct (@Forall2_In_left _ _ _ _ _ f HF Hf) as [p [_ Hp]]. congruence.
Qed.


(** X10.  A coarse node with a single member is placed at the position of
    that member. *)
Theorem pos_macro_single_member (inverse_map : Dict.t Macro (list Micro))
    (pos_micro : Dict.t Micro pos) (position : Dict.t Macro ndarray) c f :
  Dict.wf inverse_map ->
  pos_macro inverse_map pos_micro = Ok position ->
  Dict.get inverse_map c = Some [f] ->
  exists p x y,
    Dict.get pos_micro f = Some p /\ Dict.get position c = Some (Vec2 x y)
    /\ x == fst p /\ y == snd p.
Proof.
  intros Hwf Hrun Hc.
  destruct (@pos_macro_sound inverse_map pos_micro position c _ Hwf Hrun Hc) as [ps [HF Hget]].
  inversion HF as [|? p ? ps' Hp HF']; subst. inversion HF'; subst.
  exists p. eexists. eexists. split; [exact Hp|]. split; [exact Hget|].
  cbn. split; field.
Qed.

(** X12.  The coarse position map has exactly the keys of the inverse map,
    in the same iteration order. *)
Theorem pos_macro_same_keys (inverse_map : Dict.t Macro (list Micro))
    (pos_micro : Dict.t Micro pos) (position : Dict.t Macro ndarray) :
  Dict.wf inverse_map ->
  pos_macro inverse_map pos_micro = Ok position ->
  Dict.keys position = Dict.keys inverse_map.
Proof.
  intros Hwf Hrun. unfold pos_macro in Hrun.
  apply pos_macro_loop_keys in Hrun; [exact Hrun | exact Hwf].
Qed.

End LayoutEdgeCases.

(** ** The colour assigner: all-colourful mode and propagation *)

Section ColorEdgeCases.

Context {Micro Macro : Type} `{Hashable Micro} `{Hashable Macro}.

(** The loop of lines 67-68 over the keys [ks], started at index [i0] with
    the colours [d] already given out. *)
Lemma all_colorful_loop (palette : list rgba) (ks : list Macro) :
  forall (d : Dict.t Macro color) (i0 : nat),
    NoDup (Dict.keys d ++ ks) ->
    (i0 + List.length ks <= List.length palette)%nat ->
    for_each
      (fun macro_colors_dict '(i, macro_node) =>
         c <- index palette i ;;
         Ok (Dict.set macro_colors_dict macro_node (RGBA c)))
      (combine (seq i0 (List.length ks)) ks) d
    = Ok (d ++ combine ks (map RGBA (firstn (List.length ks) (skipn i0 palette)))).
Proof.
  induction ks as [|k ks IH]; intros d i0 Hnd Hlen.
  - simpl. now rewrite app_nil_r.
  - cbn [List.length seq combine for_each] in Hlen |- *.
    destruct (nth_error palette i0) as [r|] eqn:Hr.
    2:{ apply nth_error_None in Hr. lia. }
    assert (Hidx : index palette i0 = Ok r) by (unfold index; now rewrite Hr).
    rewrite Hidx. cbn [rbind].
    assert (Hfresh : ~ In k (Dict.keys d)).
    { intros Hin. apply NoDup_remove_2 in Hnd. apply Hnd. apply in_or_app. now left. }
    rewrite DictFacts.set_fresh by exact Hfresh.
    rewrite IH.
    + rewrite (skipn_nth_error _ _ Hr). cbn [firstn map combine].
      now rewrite <- app_assoc.
    + unfold Dict.keys. rewrite map_app. simpl. now rewrite <- app_assoc.
    + lia.
Qed.

Lemma all_colorful_loop_short (palette : list rgba) (ks : list Macro) :
  forall (d : Dict.t Macro color) (i0 : nat),
    (i0 <= List.length palette < i0 + List.length ks)%nat ->
    for_each
      (fun macro_colors_dict '(i, macro_node) =>
         c <- index palette i ;;
         Ok (Dict.set macro_colors_dict macro_node (RGBA c)))
      (combine (seq i0 (List.length ks)) ks) d
    = Raise IndexError.
Proof.
  induction ks as [|k ks IH]; intros d i0 Hlen.
  - simpl in Hlen. lia.
  - cbn [List.length seq combine for_each] in Hlen |- *.
    destruct (nth_error palette i0) as [r|] eqn:Hr.
    + assert (Hidx : index palette i0 = Ok r) by (unfold index; now rewrite Hr).
      rewrite Hidx. cbn [rbind]. apply IH.
      assert (i0 < List.length palette)%nat by (apply nth_error_Some; congruence). lia.
    + assert (Hidx : index palette i0 = Raise IndexError) by (unfold index; now rewrite Hr).
      now rewrite Hidx.
Qed.

(** X13.  All-colourful mode (lines 64-68): when the coarse graph has at
    least as many nodes as the inverse map has keys, the loop ends normally
    and the i-th coarse node, in the iteration order of the inverse map,
    gets the i-th of the [G_macro.number_of_nodes()] evenly spaced palette
    samples. *)
Theorem all_colorful_coloring (opts : Options) (G_macro : Graph Macro)
    (inverse_map : Dict.t Macro (list Micro)) (pos_micro : Dict.t Micro pos)
    (position : Dict.t Macro ndarray) :
  all_colorful opts = true ->
  Dict.wf inverse_map ->
  pos_macro inverse_map pos_micro = Ok position ->
  (List.length (Dict.keys inverse_map) <= number_of_nodes G_macro)%nat ->
  macro_colors_dict opts G_macro inverse_map (Dict.keys position)
  = Ok (combine (Dict.keys inverse_map)
          (map (fun x => RGBA (node_cmap opts x))
             (firstn (List.length (Dict.keys inverse_map))
                (np_linspace01 (number_of_nodes G_macro))))).
Proof.
  intros Hmode Hwf Hpos Hlen. rewrite (pos_macro_keys pos_micro Hwf Hpos).
  unfold macro_colors_dict, enumerate. rewrite Hmode.
  rewrite all_colorful_loop.
  - cbn [skipn Dict.empty app]. now rewrite firstn_map, map_map.
  - exact Hwf.
  - now rewrite length_map, np_linspace01_length.
Qed.

(** X14.  All-colourful mode: when the coarse graph has fewer nodes than
    the inverse map has keys, indexing the palette raises [IndexError]. *)
Theorem all_colorful_too_few_nodes_raises (opts : Options) (G_macro : Graph Macro)
    (inverse_map : Dict.t Macro (list Micro)) (pos_micro : Dict.t Micro pos)
    (position : Dict.t Macro ndarray) :
  all_colorful opts = true ->
  Dict.wf inverse_map ->
  pos_macro inverse_map pos_micro = Ok position ->
  (number_of_nodes G_macro < List.length (Dict.keys inverse_map))%nat ->
  macro_colors_dict opts G_macro inverse_map (Dict.keys position) = Raise IndexError.
Proof.
  intros Hmode Hwf Hpos Hlen. rewrite (pos_macro_keys pos_micro Hwf Hpos).
  unfold macro_colors_dict, enumerate. rewrite Hmode.
  apply all_colorful_loop_short. rewrite length_map, np_linspace01_length. lia.
Qed.

(** The loop of lines 83-84 either completes, or stops with [KeyError] at a
    fine node that has no coarse node or whose coarse node has no colour. *)
Lemma micro_colors_loop_cases (forward_map : Dict.t Micro Macro)
    (colors : Dict.t Macro color) (fine_nodes : list Micro) :
  forall acc : Dict.t Micro color,
    (exists assigned,
       for_each
         (fun micro_colors_dict micro_node =>
            macro_node <- Dict.getitem forward_map micro_node ;;
            c <- Dict.getitem colors macro_node ;;
            Ok (Dict.set micro_colors_dict micro_node c))
         fine_nodes acc = Ok assigned
       /\ (forall f, In f fine_nodes ->
             exists c col, Dict.get forward_map f = Some c /\
                           Dict.get colors c = Some col /\
                           Dict.get assigned f = Some col)
       /\ (forall f, ~ In f fine_nodes -> Dict.get assigned f = Dict.get acc f))
    \/ (for_each
          (fun micro_colors_dict micro_node =>
             macro_node <- Dict.getitem forward_map micro_node ;;
             c <- Dict.getitem colors macro_node ;;
             Ok (Dict.set micro_colors_dict micro_node c))
          fine_nodes acc = Raise KeyError
        /\ exists f, In f fine_nodes /\
             (Dict.get forward_map f = None
              \/ exists c, Dict.get forward_map f = Some c /\ Dict.get colors c = None)).
Proof.
  induction fine_nodes as [|f0 fine_nodes IH]; intros acc.
  - left. exists acc. simpl. repeat split; tauto.
  - cbn [for_each]. unfold Dict.getitem at 1 2 5 6.
    destruct (Dict.get forward_map f0) as [c0|] eqn:Hc0; cbn [rbind].
    2:{ right. split; [reflexivity|]. exists f0. split; [now left | now left]. }
    destruct (Dict.get colors c0) as [col0|] eqn:Hcol0; cbn [rbind].
    2:{ right. split; [reflexivity|]. exists f0. split; [now left|].
        right. now exists c0. }
    destruct (IH (Dict.set acc f0 col0))
      as [[assigned [Hrun [Hin Hout]]]|[Hrun [f [Hf Hbad]]]].
    + left. exists assigned. split; [exact Hrun|]. split.
      * intros f Hf. destruct (in_dec key_eq_dec f fine_nodes) as [Hin'|Hnot].
        -- now apply Hin.
        -- destruct Hf as [<-|Hf]; [|contradiction].
           exists c0, col0. repeat split; try assumption.
           rewrite (Hout f0 Hnot). apply DictFacts.get_set_same.
      * intros f Hf. simpl in Hf. rewrite Hout by tauto.
        apply DictFacts.get_set_other. intros ->. tauto.
    + right. split; [exact Hrun|]. exists f. split; [now right | exact Hbad].
Qed.

(** X15.  If a fine node of the position map is not a key of the forward
    map, or its coarse node has no colour, the loop of lines 82-84 raises
    [KeyError]. *)
Theorem micro_colors_missing_raises (pos_micro : Dict.t Micro pos)
    (forward_map : Dict.t Micro Macro) (colors : Dict.t Macro color) :
  (exists f, In f (Dict.keys pos_micro) /\
     (Dict.get forward_map f = None
      \/ exists c, Dict.get forward_map f = Some c /\ Dict.get colors c = None)) ->
  micro_colors_dict pos_micro forward_map colors = Raise KeyError.
Proof.
  intros [f [Hf Hbad]]. unfold micro_colors_dict.
  destruct (@micro_colors_loop_cases forward_map colors (Dict.keys pos_micro) Dict.empty)
    as [[assigned [_ [Hin _]]]|[Hraise _]]; [|exact Hraise].
  destruct (Hin f Hf) as [c [col [Hc [Hcol _]]]].
  destruct Hbad as [Hnone|[c' [Hc' Hnone]]]; congruence.
Qed.

(** X16.  Selective mode, from the inverse map to the fine nodes: a fine
    node whose coarse node has more than one member is drawn in a palette
    colour, and a fine node whose coarse node has at most one member is
    drawn in the neutral colour [nc]. *)
Theorem selective_fine_node_colors (opts : Options) (G_macro : Graph Macro)
    (forward_map : Dict.t Micro Macro) (inverse_map : Dict.t Macro (list Micro))
    (pos_micro : Dict.t Micro pos) (position : Dict.t Macro ndarray)
    (colors : Dict.t Macro color) (assigned : Dict.t Micro color) f c l :
  all_colorful opts = false ->
  Dict.wf inverse_map ->
  pos_macro inverse_map pos_micro = Ok position ->
  macro_colors_dict opts G_macro inverse_map (Dict.keys position) = Ok colors ->
  micro_colors_dict pos_micro forward_map colors = Ok assigned ->
  In f (Dict.keys pos_micro) ->
  Dict.get forward_map f = Some c ->
  Dict.get inverse_map c = Some l ->
  if (1 <? len l)%Z then exists r, Dict.get assigned f = Some (RGBA r)
  else Dict.get assigned f = Some (Named (nc opts)).
Proof.
  intros Hmode Hwf Hpos Hcolors Hassigned Hf Hc Hl.
  rewrite (pos_macro_keys pos_micro Hwf Hpos) in Hcolors.
  destruct (selective_run opts G_macro Hmode Hwf) as [colors' [Hrun [HF _]]].
  rewrite Hrun in Hcolors. injection Hcolors as ->.
  assert (Hkeys : Dict.keys colors = Dict.keys inverse_map)
    by (eapply painted_keys; exact HF).
  assert (Hwfc : Dict.wf colors) by (unfold Dict.wf; now rewrite Hkeys).
  unfold micro_colors_dict in Hassigned.
  destruct (@micro_colors_loop_cases forward_map colors (Dict.keys pos_micro) Dict.empty)
    as [[assigned' [Hrun' [Hin _]]]|[Hraise _]]; [|congruence].
  rewrite Hrun' in Hassigned. injection Hassigned as ->.
  destruct (Hin f Hf) as [c' [col [Hc' [Hcol Hget]]]].
  assert (c' = c) by congruence. subst c'.
  apply DictFacts.get_some_in in Hl.
  destruct (@Forall2_In_left _ _ _ _ _ (c, l) HF Hl) as [[c' col'] [Hinc [Hk Hpaint]]].
  simpl in Hk, Hpaint. subst c'.
  apply DictFacts.in_get in Hinc; [|exact Hwfc].
  assert (col' = col) by congruence. subst col'.
  destruct (1 <? len l)%Z.
  - destruct col as [name|r]; [discriminate|]. now exists r.
  - now subst col.
Qed.

End ColorEdgeCases.

(** ** The sizes of the coarse nodes *)

Lemma fold_left_Zmax (xs : list Z) : forall a : Z,
  (a <= fold_left Z.max xs a)%Z
  /\ Forall (fun x => (x <= fold_left Z.max xs a)%Z) xs
  /\ (fold_left Z.max xs a = a \/ In (fold_left Z.max xs a) xs).
Proof.
  induction xs as [|x xs IH]; intros a; cbn [fold_left].
  - split; [lia|]. split; [constructor | now left].
  - destruct (IH (Z.max a x)) as [Hle [Hall Hin]]. split; [lia|]. split.
    + constructor; [lia | exact Hall].
    + destruct Hin as [Heq|Hin]; [|right; now right].
      rewrite Heq. destruct (Z.max_spec a x) as [[_ ->]|[_ ->]]; [right; now left | now left].
Qed.

Lemma py_max_spec (xs : list Z) :
  xs <> [] ->
  exists m, py_max xs = Ok m /\ In m xs /\ Forall (fun x => (x <= m)%Z) xs.
Proof.
  destruct xs as [|x xs]; [congruence|]. intros _.
  destruct (fold_left_Zmax xs x) as [Hle [Hall Hin]].
  exists (fold_left Z.max xs x). split; [reflexivity|]. split.
  - destruct Hin as [->|Hin]; [now left | now right].
  - constructor; assumption.
Qed.

Lemma comprehension_ok {A B} (f : A -> result B) (P : A -> B -> Prop) (xs : list A) :
  (forall x, In x xs -> exists y, f x = Ok y /\ P x y) ->
  exists ys, comprehension f xs = Ok ys /\ Forall2 P xs ys.
Proof.
  induction xs as [|x xs IH]; intros Hall.
  - exists []. split; [reflexivity | constructor].
  - destruct (Hall x (or_introl eq_refl)) as [y [Hy HP]].
    destruct IH as [ys [Hys HF]]; [intros x' Hx'; apply Hall; now right|].
    exists (y :: ys). cbn [comprehension]. rewrite Hy, Hys. split; [reflexivity|].
    now constructor.
Qed.

Lemma comprehension_raise_inv {A B} (f : A -> result B) (xs : list A) e :
  comprehension f xs = Raise e -> exists x, In x xs /\ f x = Raise e.
Proof.
  induction xs as [|x xs IH]; cbn [comprehension]; [discriminate|].
  destruct (f x) as [y|e'] eqn:Hx; cbn [rbind].
  - destruct (comprehension f xs) as [ys|e'']; cbn [rbind]; [discriminate|].
    intros [= ->]. destruct IH as [x' [Hin Hx']]; [reflexivity|].
    exists x'. split; [now right | exact Hx'].
  - intros [= ->]. exists x. split; [now left | exact Hx].
Qed.

Lemma comprehension_raise_uniform {A B} (f : A -> result B) (xs : list A) e :
  (forall x, In x xs -> (exists y, f x = Ok y) \/ f x = Raise e) ->
  (exists x, In x xs /\ f x = Raise e) ->
  comprehension f xs = Raise e.
Proof.
  induction xs as [|x xs IH]; intros Hall [x0 [Hin Hx0]]; [contradiction|].
  cbn [comprehension].
  destruct (Hall x (or_introl eq_refl)) as [[y Hy]|Hx].
  - rewrite Hy. cbn [rbind]. rewrite IH; [reflexivity | |].
    + intros x' Hx'. apply Hall. now right.
    + destruct Hin as [<-|Hin]; [congruence|]. now exists x0.
  - now rewrite Hx.
Qed.

Lemma rescale_total (x min_value max_value min_output max_output : Q) :
  max_output == min_output \/ ~ max_value == min_value ->
  exists v, rescale_weight x min_value max_value min_output max_output = Ok v.
Proof.
  intros Hok. destruct (Qeq_dec max_output min_output) as [Heq|Hne].
  - exists min_output. now apply rescale_fixed_size.
  - destruct Hok as [Heq|Hin]; [contradiction|].
    eexists. now apply rescale_interpolates.
Qed.

Lemma rescale_raises_only_division (x min_value max_value min_output max_output : Q) e :
  rescale_weight x min_value max_value min_output max_output = Raise e ->
  e = ZeroDivisionError.
Proof.
  unfold rescale_weight, truediv.
  destruct (Qeq_bool max_output min_output); [discriminate|].
  destruct (Qeq_bool (max_value - min_value) 0); cbn [rbind]; congruence.
Qed.

Section NodeSizes.

Context {Micro Macro : Type} `{Hashable Macro}.

Lemma member_count_in_values (inverse_map : Dict.t Macro (list Micro)) c l :
  Dict.get inverse_map c = Some l ->
  In (len l) (map (fun l : list Micro => len l) (Dict.values inverse_map)).
Proof.
  intros Hc. apply DictFacts.get_some_in in Hc.
  apply in_map. unfold Dict.values. change l with (snd (c, l)). now apply in_map.
Qed.

(** X17.  When some coarse node has more than one member, [min_ns <= max_ns]
    and every node of the coarse graph has a non-empty member list, lines
    124-141 end normally and give every node of the coarse graph a size that
    is not below [min_ns], and the size [min_ns] itself to a node with one
    member. *)
Theorem macro_node_sizes_not_below_min_ns (opts : Options) (G_macro : Graph Macro)
    (inverse_map : Dict.t Macro (list Micro)) :
  min_ns opts <= max_ns opts ->
  (exists c l, Dict.get inverse_map c = Some l /\ (1 < len l)%Z) ->
  (forall node, In node (nodes G_macro) ->
     exists l, Dict.get inverse_map node = Some l /\ l <> []) ->
  exists sizes,
    macro_node_sizes opts G_macro inverse_map = Ok sizes
    /\ Forall2
         (fun node size =>
            exists l, Dict.get inverse_map node = Some l
              /\ min_ns opts <= size
              /\ (len l = 1%Z -> size == min_ns opts))
         (nodes G_macro) sizes.
Proof.
  intros Hout [c1 [l1 [Hc1 Hbig]]] Hnodes. unfold macro_node_sizes.
  destruct (@py_max_spec (map (fun l : list Micro => len l) (Dict.values inverse_map)))
    as [m [Hm [Hmin Hmall]]].
  { pose proof (member_count_in_values _ _ Hc1) as Hin.
    intros Hnil. rewrite Hnil in Hin. contradiction. }
  rewrite Hm. cbn [rbind]. rewrite Forall_forall in Hmall.
  assert (Hm1 : (1 < m)%Z).
  { specialize (Hmall _ (member_count_in_values _ _ Hc1)). lia. }
  assert (Hrange : 1 < inject_Z m).
  { change 1 with (inject_Z 1). now rewrite <- Zlt_Qlt. }
  apply comprehension_ok. intros node Hnode.
  destruct (Hnodes node Hnode) as [l [Hl Hne]].
  assert (Hlen1 : (1 <= len l)%Z).
  { destruct l; [congruence|]. unfold len. cbn [List.length]. lia. }
  assert (Hx : 1 <= inject_Z (len l)).
  { change 1 with (inject_Z 1). now rewrite <- Zle_Qle. }
  destruct (@rescale_not_below (inject_Z (len l)) 1 (inject_Z m) (min_ns opts) (max_ns opts)
              Hrange Hout Hx) as [v [Hv Hvin]].
  exists v. split; [unfold Dict.getitem; rewrite Hl; exact Hv|].
  exists l. split; [exact Hl|]. split; [exact Hvin|].
  intros Hone. rewrite Hone in Hv. change (inject_Z 1) with 1 in Hv.
  destruct (rescale_at_min (min_ns opts) (max_ns opts) Hrange) as [v' [Hv' Ev']].
  assert (v' = v) by congruence. now subst v'.
Qed.

(** X18.  When every coarse node has exactly one member (nothing was
    merged), the coarse graph has a node, its nodes are keys of the inverse
    map and [min_ns] differs from [max_ns], lines 124-141 raise
    [ZeroDivisionError]: the domain of the node sizes is the single point
    1. *)
Theorem macro_node_sizes_no_merge_raises (opts : Options) (G_macro : Graph Macro)
    (inverse_map : Dict.t Macro (list Micro)) :
  Forall (fun l => len l = 1%Z) (Dict.values inverse_map) ->
  nodes G_macro <> [] ->
  (forall node, In node (nodes G_macro) -> In node (Dict.keys inverse_map)) ->
  ~ max_ns opts == min_ns opts ->
  macro_node_sizes opts G_macro inverse_map = Raise ZeroDivisionError.
Proof.
  intros Hone Hne Hnodes Hout. unfold macro_node_sizes.
  destruct (nodes G_macro) as [|node0 rest] eqn:Eg; [congruence|].
  assert (Hin0 : In node0 (Dict.keys inverse_map)) by (apply Hnodes; now left).
  destruct (Dict.get inverse_map node0) as [l0|] eqn:Hl0.
  2:{ apply DictFacts.get_none_iff in Hl0. contradiction. }
  destruct (@py_max_spec (map (fun l : list Micro => len l) (Dict.values inverse_map)))
    as [m [Hm [Hmin _]]].
  { pose proof (member_count_in_values _ _ Hl0) as Hin.
    intros Hnil. rewrite Hnil in Hin. contradiction. }
  rewrite Hm. cbn [rbind comprehension]. unfold Dict.getitem at 1. rewrite Hl0. cbn [rbind].
  rewrite Forall_forall in Hone.
  assert (Hm1 : m = 1%Z).
  { apply in_map_iff in Hmin as [l' [<- Hl']]. now apply Hone. }
  subst m. rewrite rescale_degenerate; [reflexivity | reflexivity | exact Hout].
Qed.

(** X19.  Lines 124-141 raise [ValueError] exactly when the inverse map is
    empty. *)
Theorem macro_node_sizes_value_error (opts : Options) (G_macro : Graph Macro)
    (inverse_map : Dict.t Macro (list Micro)) :
  macro_node_sizes opts G_macro inverse_map = Raise ValueError <-> inverse_map = [].
Proof.
  unfold macro_node_sizes. split.
  - destruct inverse_map as [|[c l] rest]; [reflexivity|].
    cbn [Dict.values map py_max rbind]. intros Hraise.
    apply comprehension_raise_inv in Hraise as [node [_ Hnode]].
    unfold Dict.getitem in Hnode.
    destruct (Dict.get ((c, l) :: rest) node); cbn [rbind] in Hnode; [|discriminate].
    apply rescale_raises_only_division in Hnode. discriminate.
  - intros ->. reflexivity.
Qed.

(** X20.  When the node sizes can be computed (a single node size is asked
    for, or some coarse node has more than one member) and a node of the
    coarse graph is not a key of the inverse map, lines 124-141 raise
    [KeyError]. *)
Theorem macro_node_sizes_unknown_node_raises (opts : Options) (G_macro : Graph Macro)
    (inverse_map : Dict.t Macro (list Micro)) :
  inverse_map <> [] ->
  (max_ns opts == min_ns opts
   \/ exists c l, Dict.get inverse_map c = Some l /\ (1 < len l)%Z) ->
  (exists node, In node (nodes G_macro) /\ Dict.get inverse_map node = None) ->
  macro_node_sizes opts G_macro inverse_map = Raise KeyError.
Proof.
  intros Hne Hok Hbad. unfold macro_node_sizes.
  destruct (@py_max_spec (map (fun l : list Micro => len l) (Dict.values inverse_map)))
    as [m [Hm [_ Hmall]]].
  { destruct inverse_map; [congruence | discriminate]. }
  rewrite Hm. cbn [rbind]. rewrite Forall_forall in Hmall.
  assert (Hok' : max_ns opts == min_ns opts \/ ~ inject_Z m == 1).
  { destruct Hok as [Heq|[c [l [Hc Hbig]]]]; [now left | right].
    specialize (Hmall _ (member_count_in_values _ _ Hc)).
    intros Heq. change 1 with (inject_Z 1) in Heq.
    apply (proj1 (inject_Z_injective m 1)) in Heq. lia. }
  apply comprehension_raise_uniform.
  - intros node _. unfold Dict.getitem.
    destruct (Dict.get inverse_map node) as [l|]; cbn [rbind]; [left | now right].
    now apply rescale_total.
  - destruct Hbad as [node [Hin Hnone]]. exists node. split; [exact Hin|].
    unfold Dict.getitem. now rewrite Hnone.
Qed.

End NodeSizes.

(** ** Whole runs *)

Section WholeRuns.

Context {Micro Macro : Type} `{Hashable Micro} `{Hashable Macro}.

Lemma io_bind_ok {A B} (m : @io Micro Macro A) (k : A -> @io Micro Macro B) t1 a t2 r :
  m = (t1, Ok a) -> k a = (t2, r) -> io_bind m k = (t1 ++ t2, r).
Proof.
  intros -> Hk. unfold io_bind. now rewrite Hk.
Qed.

Lemma io_bind_raise {A B} (m : @io Micro Macro A) (k : A -> @io Micro Macro B) t e :
  m = (t, Raise e) -> io_bind m k = (t, Raise e).
Proof.
  now intros ->.
Qed.

Lemma combine_keys {A B} (ks : list A) (vs : list B) :
  (List.length ks <= List.length vs)%nat -> map fst (combine ks vs) = ks.
Proof.
  revert vs. induction ks as [|k ks IH]; intros [|v vs] Hlen; simpl in *; try reflexivity.
  - lia.
  - f_equal. apply IH. lia.
Qed.

(** Lines 64-79 give every key of the inverse map a colour, in either
    mode, as soon as the all-colourful palette is long enough. *)
Lemma macro_colors_total (opts : Options) (G_macro : Graph Macro)
    (inverse_map : Dict.t Macro (list Micro)) (pos_micro : Dict.t Micro pos)
    (position : Dict.t Macro ndarray) :
  Dict.wf inverse_map ->
  pos_macro inverse_map pos_micro = Ok position ->
  (all_colorful opts = true ->
   (List.length (Dict.keys inverse_map) <= number_of_nodes G_macro)%nat) ->
  exists colors,
    macro_colors_dict opts G_macro inverse_map (Dict.keys position) = Ok colors
    /\ Dict.keys colors = Dict.keys inverse_map.
Proof.
  intros Hwf Hpos Hlen. destruct (all_colorful opts) eqn:Hmode.
  - rewrite (pos_macro_keys pos_micro Hwf Hpos).
    unfold macro_colors_dict, enumerate. rewrite Hmode.
    rewrite all_colorful_loop.
    + eexists. split; [reflexivity|]. cbn [Dict.empty app]. unfold Dict.keys at 1.
      apply combine_keys.
      cbn [skipn].
      rewrite (length_map RGBA), length_firstn, (length_map (node_cmap opts)),
        np_linspace01_length.
      specialize (Hlen eq_refl). lia.
    + exact Hwf.
    + rewrite length_map, np_linspace01_length. now apply Hlen.
  - rewrite (pos_macro_keys pos_micro Hwf Hpos).
    destruct (selective_run opts G_macro Hmode Hwf) as [colors [Hrun [HF _]]].
    exists colors. split; [exact Hrun|]. eapply painted_keys. exact HF.
Qed.

(** The loop of lines 114-120 completes whenever [rescale_weight] cannot
    divide by zero. *)
Lemma draw_edges_total {N} (globals : @namespace Micro Macro)
    (draw : N * N * Q -> Q -> @event Micro Macro) (min_weight max_weight lo hi : Q)
    (es : list (N * N * Q)) o :
  load_global globals "nx" = Ok o ->
  es = [] \/ hi == lo \/ ~ max_weight == min_weight ->
  exists widths,
    draw_edges globals draw
      (fun weight => rescale_weight weight min_weight max_weight lo hi) es
    = (map (fun p => draw (fst p) (snd p)) (combine es widths), Ok tt)
    /\ List.length widths = List.length es.
Proof.
  intros Hnx [->|Hok]; [exists []; now split|].
  induction es as [|e es IH]; [exists []; now split|].
  destruct IH as [widths [Hrun Hlen]].
  destruct (@rescale_total (snd e) min_weight max_weight lo hi Hok) as [w Hw].
  exists (w :: widths). split; [|simpl; now rewrite Hlen].
  cbn [combine map fst snd].
  apply (@draw_edges_cons_ok _ _ _ globals draw _ e es o w _ _ Hnx Hw Hrun).
Qed.

Lemma separated_weights {N} (es : list (N * N * Q)) :
  (exists e1 e2, In e1 es /\ In e2 es /\ snd e1 < snd e2) ->
  ~ snd (weight_range es) == fst (weight_range es).
Proof.
  intros [e1 [e2 [H1 [H2 Hlt]]]].
  pose proof (weight_range_encloses es) as Hall. rewrite Forall_forall in Hall.
  destruct (Hall e1 H1) as [Ha _]. destruct (Hall e2 H2) as [_ Hb]. lra.
Qed.

Lemma io_bind_step {A B} (m : @io Micro Macro A) (k : A -> @io Micro Macro B)
    t t1 a t2 r :
  m = (t1, Ok a) -> t = t1 ++ t2 -> k a = (t2, r) -> io_bind m k = (t, r).
Proof.
  intros -> -> Hk. unfold io_bind. now rewrite Hk.
Qed.

Lemma lift_ok {A} (r : result A) a : r = Ok a -> @lift Micro Macro A r = ([], Ok a).
Proof.
  now intros ->.
Qed.

(** Every coarse node with at least one member has a two-component
    position, so that [nx.draw] can pack the positions into one array. *)
Lemma nx_draw_positions_ok (inverse_map : Dict.t Macro (list Micro))
    (pos_micro : Dict.t Micro pos) (position : Dict.t Macro ndarray)
    (nodelist : list Macro) :
  Dict.wf inverse_map ->
  pos_macro inverse_map pos_micro = Ok position ->
  (forall c l, Dict.get inverse_map c = Some l -> l <> []) ->
  (forall c, In c nodelist -> In c (Dict.keys inverse_map)) ->
  nx_draw_positions position nodelist = Ok tt.
Proof.
  intros Hwf Hpos Hnonempty Hnodes.
  assert (Hvec : forall c, In c nodelist ->
            exists x y, Dict.get position c = Some (Vec2 x y)).
  { intros c Hc. destruct (Dict.get inverse_map c) as [l|] eqn:Hl.
    2:{ apply DictFacts.get_none_iff in Hl. exfalso. apply Hl. now apply Hnodes. }
    destruct (@pos_macro_sound _ _ _ _ inverse_map pos_micro position c l Hwf Hpos Hl)
      as [ps [HF Hget]].
    destruct ps as [|p ps].
    - inversion HF; subst. exfalso. now apply (Hnonempty c []).
    - rewrite Hget. cbn [np_mean_axis0]. eexists. eexists. reflexivity. }
  unfold nx_draw_positions. destruct nodelist as [|n0 rest] eqn:En; [reflexivity|].
  rewrite <- En in *. clear En.
  destruct (@comprehension_ok _ _ (Dict.getitem position)
              (fun _ p => is_nan p = false) nodelist) as [xy [Hxy HF]].
  { intros c Hc. destruct (Hvec c Hc) as [x [y Hget]].
    exists (Vec2 x y). unfold Dict.getitem. rewrite Hget. now split. }
  rewrite Hxy.
  assert (Hall : forallb (fun p => negb (is_nan p)) xy = true).
  { clear - HF. induction HF as [|c p cs ps Hp HF IH]; [reflexivity|].
    cbn [forallb]. rewrite Hp. cbn [negb andb]. apply IH. }
  now rewrite Hall.
Qed.

(** X21.  The routine runs to the end, and draws both panels, every edge
    once and in order, the two titles and the figure, when: the two helpers
    return a forward map and a non-empty inverse map without an empty member
    list; every member listed in
    the inverse map has a position; every fine node of the layout is mapped
    to a key of the inverse map; the nodes of the fine graph have positions
    and those of the coarse graph are keys of the inverse map; in
    all-colourful mode the coarse graph has at least as many nodes as the
    inverse map has keys; and no rescaling divides by zero (no edge, or a
    single line width, or two edges of different weights; no coarse node, or
    a single node size, or a coarse node with several members). *)
Theorem run_completes
    (translate : @DataFrame Micro Macro -> result (Dict.t Micro Macro))
    (invert : Dict.t Micro Macro -> result (Dict.t Macro (list Micro)))
    (spring_layout : Graph Micro -> Dict.t Micro pos)
    (G_micro : Graph Micro) (mapping : @DataFrame Micro Macro) (G_macro : Graph Macro)
    (opts : Options)
    (forward_map : Dict.t Micro Macro) (inverse_map : Dict.t Macro (list Micro)) :
  translate mapping = Ok forward_map ->
  invert forward_map = Ok inverse_map ->
  Dict.wf inverse_map ->
  inverse_map <> [] ->
  (forall c l, Dict.get inverse_map c = Some l -> l <> []) ->
  (forall c l f, Dict.get inverse_map c = Some l -> In f l ->
     exists p, Dict.get (spring_layout G_micro) f = Some p) ->
  (forall f, In f (Dict.keys (spring_layout G_micro)) ->
     exists c, Dict.get forward_map f = Some c /\ In c (Dict.keys inverse_map)) ->
  (forall f, In f (nodes G_micro) -> In f (Dict.keys (spring_layout G_micro))) ->
  (forall c, In c (nodes G_macro) -> In c (Dict.keys inverse_map)) ->
  (all_colorful opts = true ->
   (List.length (Dict.keys inverse_map) <= number_of_nodes G_macro)%nat) ->
  (edges G_micro = [] \/ max_lw opts == min_lw opts
   \/ exists e1 e2, In e1 (edges G_micro) /\ In e2 (edges G_micro) /\ snd e1 < snd e2) ->
  (edges G_macro = [] \/ max_lw opts == min_lw opts
   \/ exists e1 e2, In e1 (edges G_macro) /\ In e2 (edges G_macro) /\ snd e1 < snd e2) ->
  (nodes G_macro = [] \/ max_ns opts == min_ns opts
   \/ exists c l, Dict.get inverse_map c = Some l /\ (1 < len l)%Z) ->
  exists position micro_colors micro_widths sizes macro_colors macro_widths,
    visualize_micro_macro (globals_binding translate invert) spring_layout
      G_micro mapping G_macro opts
    = (Subplots
       :: match method_title opts with
          | Some title => [Suptitle title]
          | None => []
          end
       ++ DrawMicro G_micro (spring_layout G_micro) (min_ns opts) micro_colors (nec opts)
       :: map (fun p => DrawMicroEdge (fst p) (snd p) (ec opts))
            (combine (edges G_micro) micro_widths)
       ++ DrawMacro G_macro position sizes macro_colors (nec opts)
       :: map (fun p => DrawMacroEdge (fst p) (snd p) (ec opts))
            (combine (edges G_macro) macro_widths)
       ++ [SetTitle 0 "Original network"; SetTitle 1 "Coarse-grained network"; PltShow],
       Ok tt)
    /\ pos_macro inverse_map (spring_layout G_micro) = Ok position
    /\ List.length micro_colors = List.length (nodes G_micro)
    /\ List.length micro_widths = List.length (edges G_micro)
    /\ List.length sizes = List.length (nodes G_macro)
    /\ List.length macro_colors = List.length (nodes G_macro)
    /\ List.length macro_widths = List.length (edges G_macro).
Proof.
  intros Htr Hinv Hwf Hne Hnonempty Hmembers Hfwd Hmicro Hmacro Hpalette Hew_micro Hew_macro
    Hsizes.
  set (globals := globals_binding translate invert).
  assert (Hnx : load_global globals "nx" = Ok (PyModule "networkx")) by reflexivity.
  (* lines 59-61 *)
  destruct (@pos_macro_loop _ _ _ _ (spring_layout G_micro) (Dict.items inverse_map)
              Dict.empty Hwf) as [position [Hpos _]].
  { intros c l f Hcl Hf. apply (Hmembers c l f); [now apply DictFacts.in_get | exact Hf]. }
  change (pos_macro inverse_map (spring_layout G_micro) = Ok position) in Hpos.
  (* lines 64-79 *)
  destruct (@macro_colors_total opts G_macro inverse_map (spring_layout G_micro) position
              Hwf Hpos Hpalette) as [colors [Hcolors Hkeys]].
  (* lines 82-84 *)
  destruct (@micro_colors_loop _ _ _ _ forward_map colors
              (Dict.keys (spring_layout G_micro)) Dict.empty) as [assigned [Hassigned [Hin _]]].
  { intros f Hf. destruct (Hfwd f Hf) as [c [Hc Hck]]. rewrite <- Hkeys in Hck.
    destruct (Dict.get colors c) as [col|] eqn:Hcol.
    - now exists c, col.
    - apply DictFacts.get_none_iff in Hcol. contradiction. }
  change (micro_colors_dict (spring_layout G_micro) forward_map colors = Ok assigned)
    in Hassigned.
  (* lines 88-94 *)
  destruct (@comprehension_getitem _ _ _ assigned (nodes G_micro))
    as [micro_colors [Hmc HmcF]].
  { intros f Hf. destruct (Hin f (Hmicro f Hf)) as [c [col [_ [_ Hget]]]]. now exists col. }
  (* lines 96-120 *)
  destruct (weight_range (edges G_micro)) as [mn1 mx1] eqn:Er1.
  destruct (@draw_edges_total Micro globals
              (fun edge width => DrawMicroEdge edge width (ec opts))
              mn1 mx1 (min_lw opts) (max_lw opts) (edges G_micro) _ Hnx)
    as [micro_widths [Hdraw1 Hlen1]].
  { destruct Hew_micro as [He|[Hfix|Hsep]]; [now left | right; now left | right; right].
    apply separated_weights in Hsep. now rewrite Er1 in Hsep. }
  (* lines 124-141 *)
  destruct (@py_max_spec (map (fun l : list Micro => len l) (Dict.values inverse_map)))
    as [m [Hm [_ Hmall]]].
  { destruct inverse_map; [congruence | discriminate]. }
  rewrite Forall_forall in Hmall.
  destruct (@comprehension_ok _ _
              (fun node =>
                 micro_nodes <- Dict.getitem inverse_map node ;;
                 rescale_weight (inject_Z (len micro_nodes)) 1 (inject_Z m)
                   (min_ns opts) (max_ns opts))
              (fun _ _ => True) (nodes G_macro)) as [sizes [Hsz HszF]].
  { intros node Hnode.
    destruct (Dict.get inverse_map node) as [l|] eqn:Hl.
    2:{ apply DictFacts.get_none_iff in Hl. exfalso. apply Hl. now apply Hmacro. }
    unfold Dict.getitem. rewrite Hl. cbn [rbind].
    destruct (@rescale_total (inject_Z (len l)) 1 (inject_Z m) (min_ns opts) (max_ns opts))
      as [v Hv]; [|exists v; now split].
    destruct Hsizes as [Hnone|[Hfix|[c [l' [Hc Hbig]]]]].
    - rewrite Hnone in Hnode. contradiction.
    - now left.
    - right. specialize (Hmall _ (member_count_in_values _ _ Hc)).
      intros Heq. change 1 with (inject_Z 1) in Heq.
      apply (proj1 (inject_Z_injective m 1)) in Heq. lia. }
  assert (Hsizes_run : macro_node_sizes opts G_macro inverse_map = Ok sizes).
  { unfold macro_node_sizes. rewrite Hm. exact Hsz. }
  destruct (@comprehension_getitem _ _ _ colors (nodes G_macro))
    as [macro_colors [Hxc HxcF]].
  { intros c Hc. destruct (Dict.get colors c) as [col|] eqn:Hcol; [now exists col|].
    apply DictFacts.get_none_iff in Hcol. exfalso. apply Hcol. rewrite Hkeys.
    now apply Hmacro. }
  pose proof (@nx_draw_positions_ok inverse_map (spring_layout G_micro) position
                (nodes G_macro) Hwf Hpos Hnonempty Hmacro) as Hdrawable.
  (* lines 147-171 *)
  destruct (weight_range (edges G_macro)) as [mn2 mx2] eqn:Er2.
  destruct (@draw_edges_total Macro globals
              (fun edge width => DrawMacroEdge edge width (ec opts))
              mn2 mx2 (min_lw opts) (max_lw opts) (edges G_macro) _ Hnx)
    as [macro_widths [Hdraw2 Hlen2]].
  { destruct Hew_macro as [He|[Hfix|Hsep]]; [now left | right; now left | right; right].
    apply separated_weights in Hsep. now rewrite Er2 in Hsep. }
  exists position, micro_colors, micro_widths, sizes, macro_colors, macro_widths.
  split.
  2:{ split; [exact Hpos|].
      split; [symmetry; eapply Forall2_length; exact HmcF|].
      split; [exact Hlen1|].
      split; [symmetry; eapply Forall2_length; exact HszF|].
      split; [symmetry; eapply Forall2_length; exact HxcF | exact Hlen2]. }
  unfold visualize_micro_macro. fold globals. rewrite Er1, Er2.
  eapply io_bind_step;
    [eapply call_drawing_ok; reflexivity | reflexivity | cbv beta zeta].
  eapply io_bind_step with (t1 := match method_title opts with
                                  | Some title => [Suptitle title]
                                  | None => []
                                  end) (a := tt);
    [destruct (method_title opts); reflexivity | reflexivity | cbv beta zeta].
  eapply io_bind_step; [reflexivity | reflexivity | cbv beta zeta].
  eapply io_bind_step; [apply lift_ok; exact Htr | reflexivity | cbv beta zeta].
  eapply io_bind_step; [reflexivity | reflexivity | cbv beta zeta].
  eapply io_bind_step; [apply lift_ok; exact Hinv | reflexivity | cbv beta zeta].
  eapply io_bind_step; [reflexivity | reflexivity | cbv beta zeta].
  eapply io_bind_step; [apply lift_ok; exact Hpos | reflexivity | cbv beta zeta].
  eapply io_bind_step; [reflexivity | reflexivity | cbv beta zeta].
  eapply io_bind_step; [reflexivity | reflexivity | cbv beta zeta].
  eapply io_bind_step; [apply lift_ok; exact Hcolors | reflexivity | cbv beta zeta].
  eapply io_bind_step; [apply lift_ok; exact Hassigned | reflexivity | cbv beta zeta].
  eapply io_bind_step;
    [eapply call_drawing_ok; [exact Hnx | exact Hmc] | reflexivity | cbv beta zeta].
  eapply io_bind_step; [exact Hdraw1 | reflexivity | cbv beta zeta].
  eapply io_bind_step; [apply lift_ok; exact Hsizes_run | reflexivity | cbv beta zeta].
  eapply io_bind_step;
    [eapply call_drawing_ok;
       [exact Hnx | rewrite Hxc; cbn [rbind]; rewrite Hdrawable; reflexivity]
    | reflexivity | cbv beta zeta].
  eapply io_bind_step; [exact Hdraw2 | reflexivity | cbv beta zeta].
  eapply io_bind_step; [reflexivity | reflexivity | cbv beta zeta].
  reflexivity.
Qed.

Lemma io_bind_stop {A B} (m : @io Micro Macro A) (k : A -> @io Micro Macro B) e :
  m = ([], Raise e) -> io_bind m k = ([], Raise e).
Proof.
  now intros ->.
Qed.

Lemma pos_macro_raises_only_key_error (inverse_map : Dict.t Macro (list Micro))
    (pos_micro : Dict.t Micro pos) e :
  Dict.wf inverse_map ->
  pos_macro inverse_map pos_micro = Raise e -> e = KeyError.
Proof.
  intros Hwf Hrun. unfold pos_macro in Hrun.
  destruct (@pos_macro_loop_cases _ _ _ _ pos_micro (Dict.items inverse_map) Hwf Dict.empty)
    as [[pm [Hok _]]|[Hraise _]]; congruence.
Qed.

(** X22.  When a fine node of the layout is not a key of the forward map
    (and, in all-colourful mode, the coarse graph has at least as many nodes
    as the inverse map has keys), the routine raises [KeyError] after the
    figure has been created and before anything is drawn. *)
Theorem run_unmapped_fine_node_raises
    (translate : @DataFrame Micro Macro -> result (Dict.t Micro Macro))
    (invert : Dict.t Micro Macro -> result (Dict.t Macro (list Micro)))
    (spring_layout : Graph Micro -> Dict.t Micro pos)
    (G_micro : Graph Micro) (mapping : @DataFrame Micro Macro) (G_macro : Graph Macro)
    (opts : Options)
    (forward_map : Dict.t Micro Macro) (inverse_map : Dict.t Macro (list Micro)) :
  translate mapping = Ok forward_map ->
  invert forward_map = Ok inverse_map ->
  Dict.wf inverse_map ->
  (all_colorful opts = true ->
   (List.length (Dict.keys inverse_map) <= number_of_nodes G_macro)%nat) ->
  (exists f, In f (Dict.keys (spring_layout G_micro)) /\ Dict.get forward_map f = None) ->
  visualize_micro_macro (globals_binding translate invert) spring_layout
    G_micro mapping G_macro opts
  = (Subplots :: match method_title opts with
                 | Some title => [Suptitle title]
                 | None => []
                 end,
     Raise KeyError).
Proof.
  intros Htr Hinv Hwf Hpalette [f [Hf Hnone]].
  set (globals := globals_binding translate invert).
  unfold visualize_micro_macro. fold globals.
  destruct (pos_macro inverse_map (spring_layout G_micro)) as [position|e] eqn:Hpos.
  - destruct (@macro_colors_total opts G_macro inverse_map (spring_layout G_micro) position
                Hwf Hpos Hpalette) as [colors [Hcolors _]].
    assert (Hraise : micro_colors_dict (spring_layout G_micro) forward_map colors
                     = Raise KeyError).
    { unfold micro_colors_dict.
      destruct (@micro_colors_loop_cases _ _ _ _ forward_map colors
                  (Dict.keys (spring_layout G_micro)) Dict.empty)
        as [[assigned [_ [Hin _]]]|[Hraise _]]; [|exact Hraise].
      destruct (Hin f Hf) as [c [col [Hc _]]]. congruence. }
    destruct (method_title opts);
      (eapply io_bind_step; [eapply call_drawing_ok; reflexivity | reflexivity | cbv beta zeta];
       eapply io_bind_step; [reflexivity | reflexivity | cbv beta zeta];
       eapply io_bind_step; [reflexivity | reflexivity | cbv beta zeta];
       eapply io_bind_step; [apply lift_ok; exact Htr | reflexivity | cbv beta zeta];
       eapply io_bind_step; [reflexivity | reflexivity | cbv beta zeta];
       eapply io_bind_step; [apply lift_ok; exact Hinv | reflexivity | cbv beta zeta];
       eapply io_bind_step; [reflexivity | reflexivity | cbv beta zeta];
       eapply io_bind_step; [apply lift_ok; exact Hpos | reflexivity | cbv beta zeta];
       eapply io_bind_step; [reflexivity | reflexivity | cbv beta zeta];
       eapply io_bind_step; [reflexivity | reflexivity | cbv beta zeta];
       eapply io_bind_step; [apply lift_ok; exact Hcolors | reflexivity | cbv beta zeta];
       apply io_bind_stop; unfold lift; now rewrite Hraise).
  - assert (He : e = KeyError)
      by (eapply pos_macro_raises_only_key_error; [exact Hwf | exact Hpos]).
    subst e.
    destruct (method_title opts);
      (eapply io_bind_step; [eapply call_drawing_ok; reflexivity | reflexivity | cbv beta zeta];
       eapply io_bind_step; [reflexivity | reflexivity | cbv beta zeta];
       eapply io_bind_step; [reflexivity | reflexivity | cbv beta zeta];
       eapply io_bind_step; [apply lift_ok; exact Htr | reflexivity | cbv beta zeta];
       eapply io_bind_step; [reflexivity | reflexivity | cbv beta zeta];
       eapply io_bind_step; [apply lift_ok; exact Hinv | reflexivity | cbv beta zeta];
       eapply io_bind_step; [reflexivity | reflexivity | cbv beta zeta];
       apply io_bind_stop; unfold lift; now rewrite Hpos).
Qed.

End WholeRuns.

(** ** The further properties at concrete inputs *)

Ltac solve_Qle := let Hc := fresh in intros Hc; discriminate Hc.

Lemma draw_edges_all_drawn_witness :
  exists widths,
    draw_edges (@module_globals Z string)
      (fun edge width => DrawMicroEdge edge width ".7")
      (fun weight =>
         rescale_weight weight (fst (weight_range (edges scenario_G_micro)))
           (snd (weight_range (edges scenario_G_micro))) 2 4)
      (edges scenario_G_micro)
    = (map (fun p => DrawMicroEdge (fst p) (snd p) ".7")
         (combine (edges scenario_G_micro) widths), Ok tt)
    /\ List.length widths = 2%nat
    /\ Forall (fun width => 2 <= width) widths.
Proof.
  apply (@draw_edges_all_drawn Z string Z (@module_globals Z string)
           (fun edge width => DrawMicroEdge edge width ".7") 2 4
           (edges scenario_G_micro) (PyModule "networkx") eq_refl).
  - exists (1%Z, 2%Z, 1), (3%Z, 4%Z, 2). simpl. split; [tauto|]. split; [tauto|]. reflexivity.
  - solve_Qle.
Defined.

Lemma draw_edges_equal_weights_raise_witness :
  draw_edges (@module_globals Z string)
    (fun edge width => DrawMacroEdge edge width ".7")
    (fun w =>
       rescale_weight w (fst (weight_range (edges scenario_G_macro)))
         (snd (weight_range (edges scenario_G_macro))) 2 4)
    (edges scenario_G_macro)
  = ([], Raise ZeroDivisionError).
Proof.
  apply (@draw_edges_equal_weights_raise Z string string (@module_globals Z string)
           (fun edge width => DrawMacroEdge edge width ".7") 2 4 1
           (edges scenario_G_macro) (PyModule "networkx") eq_refl).
  - discriminate.
  - repeat constructor.
  - split; solve_Qle.
  - intros Hc. discriminate Hc.
Defined.

Lemma draw_edges_fixed_width_witness :
  draw_edges (@module_globals Z string)
    (fun edge width => DrawMicroEdge edge width ".7")
    (fun w =>
       rescale_weight w (fst (weight_range (edges scenario_G_micro)))
         (snd (weight_range (edges scenario_G_micro))) 3 3)
    (edges scenario_G_micro)
  = (map (fun edge => DrawMicroEdge edge 3 ".7") (edges scenario_G_micro), Ok tt).
Proof.
  apply (@draw_edges_fixed_width Z string Z (@module_globals Z string)
           (fun edge width => DrawMicroEdge edge width ".7") 3 3
           (edges scenario_G_micro) (PyModule "networkx") eq_refl).
  reflexivity.
Defined.

Lemma pos_macro_missing_position_raises_witness :
  pos_macro scenario_inverse (scenario_layout (mkGraph [1; 2]%Z [])) = Raise KeyError.
Proof.
  apply (@pos_macro_missing_position_raises Z string _ _ scenario_inverse
           (scenario_layout (mkGraph [1; 2]%Z [])) scenario_inverse_wf).
  exists "B"%string, [3; 4]%Z, 3%Z. repeat split. simpl. tauto.
Defined.



Lemma pos_macro_single_member_witness :
  exists position p x y,
    pos_macro singletons_inverse (scenario_layout scenario_G_micro) = Ok position
    /\ Dict.get (scenario_layout scenario_G_micro) 2%Z = Some p
    /\ Dict.get position "B"%string = Some (Vec2 x y)
    /\ x == fst p /\ y == snd p.
Proof.
  destruct (pos_macro singletons_inverse (scenario_layout scenario_G_micro))
    as [position|e] eqn:Hpos; [|vm_compute in Hpos; discriminate Hpos].
  destruct (@pos_macro_single_member Z string _ _ singletons_inverse
              (scenario_layout scenario_G_micro) position "B"%string 2%Z
              singletons_inverse_wf Hpos eq_refl) as [p [x [y Hall]]].
  exists position, p, x, y. split; [reflexivity | exact Hall].
Defined.

Lemma pos_macro_same_keys_witness :
  exists position,
    pos_macro scenario_inverse (scenario_layout scenario_G_micro) = Ok position
    /\ Dict.keys position = ["A"; "B"]%string.
Proof.
  destruct (pos_macro scenario_inverse (scenario_layout scenario_G_micro))
    as [position|e] eqn:Hpos; [|vm_compute in Hpos; discriminate Hpos].
  exists position. split; [reflexivity|].
  apply (@pos_macro_same_keys Z string _ _ scenario_inverse
           (scenario_layout scenario_G_micro) position scenario_inverse_wf Hpos).
Defined.

Lemma all_colorful_coloring_witness :
  exists position,
    pos_macro scenario_inverse (scenario_layout scenario_G_micro) = Ok position
    /\ macro_colors_dict default_options scenario_G_macro scenario_inverse
         (Dict.keys position)
       = Ok (combine (Dict.keys scenario_inverse)
               (map (fun x => RGBA (Set2 x))
                  (firstn (List.length (Dict.keys scenario_inverse))
                     (np_linspace01 (number_of_nodes scenario_G_macro))))).
Proof.
  destruct (pos_macro scenario_inverse (scenario_layout scenario_G_micro))
    as [position|e] eqn:Hpos; [|vm_compute in Hpos; discriminate Hpos].
  exists position. split; [reflexivity|].
  apply (@all_colorful_coloring Z string _ _ default_options scenario_G_macro
           scenario_inverse (scenario_layout scenario_G_micro) position
           eq_refl scenario_inverse_wf Hpos).
  vm_compute. lia.
Defined.

Lemma all_colorful_too_few_nodes_raises_witness :
  exists position,
    pos_macro scenario_inverse (scenario_layout scenario_G_micro) = Ok position
    /\ macro_colors_dict default_options (mkGraph ["A"%string] []) scenario_inverse
         (Dict.keys position) = Raise IndexError.
Proof.
  destruct (pos_macro scenario_inverse (scenario_layout scenario_G_micro))
    as [position|e] eqn:Hpos; [|vm_compute in Hpos; discriminate Hpos].
  exists position. split; [reflexivity|].
  apply (@all_colorful_too_few_nodes_raises Z string _ _ default_options
           (mkGraph ["A"%string] []) scenario_inverse
           (scenario_layout scenario_G_micro) position
           eq_refl scenario_inverse_wf Hpos).
  vm_compute. lia.
Defined.

Lemma micro_colors_missing_raises_witness :
  micro_colors_dict (scenario_layout scenario_G_micro)
    (get_micro2macro_dict_from_pd_df singletons_mapping)
    [("A"%string, Named "w"); ("B"%string, Named "k")] = Raise KeyError.
Proof.
  apply (@micro_colors_missing_raises Z string _ _ (scenario_layout scenario_G_micro)
           (get_micro2macro_dict_from_pd_df singletons_mapping)
           [("A"%string, Named "w"); ("B"%string, Named "k")]).
  exists 3%Z. split; [simpl; tauto | left; reflexivity].
Defined.

Lemma selective_fine_node_colors_witness :
  exists position colors assigned r,
    pos_macro scenario_inverse (scenario_layout scenario_G_micro) = Ok position
    /\ macro_colors_dict selective_options scenario_G_macro scenario_inverse
         (Dict.keys position) = Ok colors
    /\ micro_colors_dict (scenario_layout scenario_G_micro)
         (get_micro2macro_dict_from_pd_df scenario_mapping) colors = Ok assigned
    /\ Dict.get assigned 1%Z = Some (RGBA r).
Proof.
  destruct (pos_macro scenario_inverse (scenario_layout scenario_G_micro))
    as [position|e] eqn:Hpos; [|vm_compute in Hpos; discriminate Hpos].
  destruct (macro_colors_dict selective_options scenario_G_macro scenario_inverse
              (Dict.keys position)) as [colors|e] eqn:Hcolors.
  2:{ vm_compute in Hpos. injection Hpos as <-. vm_compute in Hcolors. discriminate Hcolors. }
  destruct (micro_colors_dict (scenario_layout scenario_G_micro)
              (get_micro2macro_dict_from_pd_df scenario_mapping) colors)
    as [assigned|e] eqn:Hassigned.
  2:{ vm_compute in Hpos. injection Hpos as <-.
      vm_compute in Hcolors. injection Hcolors as <-.
      vm_compute in Hassigned. discriminate Hassigned. }
  pose proof (@selective_fine_node_colors Z string _ _ selective_options scenario_G_macro
                (get_micro2macro_dict_from_pd_df scenario_mapping) scenario_inverse
                (scenario_layout scenario_G_micro) position colors assigned
                1%Z "A"%string [1; 2]%Z
                eq_refl scenario_inverse_wf Hpos Hcolors Hassigned) as Hprop.
  destruct Hprop as [r Hr]; [simpl; tauto | reflexivity | reflexivity|].
  exists position, colors, assigned, r.
  split; [reflexivity|]. split; [exact Hcolors|]. split; [exact Hassigned | exact Hr].
Defined.

Lemma macro_node_sizes_not_below_min_ns_witness :
  exists sizes,
    macro_node_sizes default_options scenario_G_macro scenario_inverse = Ok sizes
    /\ Forall2
         (fun node size =>
            exists l, Dict.get scenario_inverse node = Some l
              /\ 60 <= size
              /\ (len l = 1%Z -> size == 60))
         (nodes scenario_G_macro) sizes.
Proof.
  apply (@macro_node_sizes_not_below_min_ns Z string _ default_options scenario_G_macro
           scenario_inverse).
  - solve_Qle.
  - exists "A"%string, [1; 2]%Z. split; reflexivity.
  - intros node Hnode. simpl in Hnode.
    destruct Hnode as [<-|[<-|[]]]; eexists; (split; [reflexivity | discriminate]).
Defined.

Lemma macro_node_sizes_no_merge_raises_witness :
  macro_node_sizes default_options (mkGraph ["A"; "B"]%string []) singletons_inverse
  = Raise ZeroDivisionError.
Proof.
  apply (@macro_node_sizes_no_merge_raises Z string _ default_options
           (mkGraph ["A"; "B"]%string []) singletons_inverse).
  - repeat constructor.
  - discriminate.
  - intros node Hnode. exact Hnode.
  - intros Hc. discriminate Hc.
Defined.

Lemma macro_node_sizes_unknown_node_raises_witness :
  macro_node_sizes default_options (mkGraph ["A"; "C"]%string []) scenario_inverse
  = Raise KeyError.
Proof.
  apply (@macro_node_sizes_unknown_node_raises Z string _ default_options
           (mkGraph ["A"; "C"]%string []) scenario_inverse).
  - discriminate.
  - right. exists "A"%string, [1; 2]%Z. split; reflexivity.
  - exists "C"%string. split; [simpl; tauto | reflexivity].
Defined.

Lemma run_unmapped_fine_node_raises_witness :
  visualize_micro_macro
    (globals_binding (fun mapping => Ok (get_micro2macro_dict_from_pd_df mapping))
       (fun d => Ok (get_macro2microlist_dict_from_micro2macro_dict d)))
    scenario_layout scenario_G_micro singletons_mapping scenario_G_macro default_options
  = ([Subplots], Raise KeyError).
Proof.
  apply (@run_unmapped_fine_node_raises Z string _ _
           (fun mapping => Ok (get_micro2macro_dict_from_pd_df mapping))
           (fun d => Ok (get_macro2microlist_dict_from_micro2macro_dict d))
           scenario_layout scenario_G_micro singletons_mapping scenario_G_macro
           default_options (get_micro2macro_dict_from_pd_df singletons_mapping)
           singletons_inverse eq_refl eq_refl singletons_inverse_wf).
  - intros _. vm_compute. lia.
  - exists 3%Z. split; [simpl; tauto | reflexivity].
Defined.

Lemma run_completes_witness :
  exists drawn,
    visualize_micro_macro
      (globals_binding (fun mapping => Ok (get_micro2macro_dict_from_pd_df mapping))
         (fun d => Ok (get_macro2microlist_dict_from_micro2macro_dict d)))
      scenario_layout scenario_G_micro scenario_mapping scenario_G_macro
      {| min_ns := 60; max_ns := 300; min_lw := 3; max_lw := 3;
         ec := ".7"; nc := "w"; nec := "steelblue";
         all_colorful := true; node_cmap := Set2; method_title := None |}
    = (drawn, Ok tt).
Proof.
  destruct (@run_completes Z string _ _
              (fun mapping => Ok (get_micro2macro_dict_from_pd_df mapping))
              (fun d => Ok (get_macro2microlist_dict_from_micro2macro_dict d))
              scenario_layout scenario_G_micro scenario_mapping scenario_G_macro
              {| min_ns := 60; max_ns := 300; min_lw := 3; max_lw := 3;
                 ec := ".7"; nc := "w"; nec := "steelblue";
                 all_colorful := true; node_cmap := Set2; method_title := None |}
              (get_micro2macro_dict_from_pd_df scenario_mapping) scenario_inverse
              eq_refl eq_refl scenario_inverse_wf)
    as [position [mc [mw [sizes [xc [xw [Hrun _]]]]]]].
  - discriminate.
  - intros c l Hc. rewrite scenario_inverse_eq in Hc. simpl in Hc.
    destruct (key_eq_dec c "A"%string); [|destruct (key_eq_dec c "B"%string)];
      try discriminate; injection Hc as <-; discriminate.
  - intros c l f Hc Hf. rewrite scenario_inverse_eq in Hc. simpl in Hc.
    destruct (key_eq_dec c "A"%string); [|destruct (key_eq_dec c "B"%string)];
      try discriminate; injection Hc as <-; simpl in Hf;
      repeat (destruct Hf as [<-|Hf]; [eexists; reflexivity|]); contradiction.
  - intros f Hf. simpl in Hf.
    repeat (destruct Hf as [<-|Hf];
            [eexists; split; [reflexivity | simpl; tauto]|]).
    contradiction.
  - intros f Hf. exact Hf.
  - intros c Hc. exact Hc.
  - intros _. vm_compute. lia.
  - right. right. exists (1%Z, 2%Z, 1), (3%Z, 4%Z, 2). simpl.
    split; [tauto|]. split; [tauto | reflexivity].
  - right. left. reflexivity.
  - right. right. exists "A"%string, [1; 2]%Z. split; reflexivity.
  - eexists. exact Hrun.
Defined.
